(** * random-access-kjv: catalog, range resolver, selector and verse extractor

    A shallow embedding of [randfromkjv/main.go] (the command line program;
    the HTTP handler repeats the same code) and the properties of its
    specification that concern the catalog load, [sliceRange], the category
    labels, the weighted selection of a line and the extraction of verses. *)

From Stdlib Require Import ZArith Lia Ascii String.
From stdpp Require Import gmap strings list sorting pretty.

Local Open Scope Z_scope.

(** ** Go's [int]

    [int] is 64 bits wide on the targets the program is built for; [+] and
    [-] wrap around silently. *)
Module GoInt.

Definition min_int : Z := - 2 ^ 63.
Definition max_int : Z := 2 ^ 63 - 1.

Definition in_range (z : Z) : Prop := min_int ≤ z ≤ max_int.

(** Two's complement reduction of a mathematical integer to an [int]. *)
Definition wrap (z : Z) : Z := (z + 2 ^ 63) mod 2 ^ 64 - 2 ^ 63.

Definition add (a b : Z) : Z := wrap (a + b).
Definition sub (a b : Z) : Z := wrap (a - b).

End GoInt.

(** ** The [strings] and [strconv] functions the program calls

    Go strings are byte sequences, and so are Rocq's; every separator the
    program uses is one ASCII byte. *)
Module Strings.

(** [strings.Split(s, sep)] for a one byte separator: all the fields,
    [len(result)] is the number of separators plus one. *)
Fixpoint Split (sep : ascii) (s : string) : list string :=
  match s with
  | EmptyString => [EmptyString]
  | String c r =>
      if decide (c = sep) then EmptyString :: Split sep r
      else match Split sep r with
           | f :: fs => String c f :: fs
           | [] => [String c EmptyString]
           end
  end.

(** [strings.Index] followed by the two sub-slices [s[:i]] and [s[i+1:]]:
    the cut at the first occurrence of [sep], if there is one. *)
Fixpoint cut (sep : ascii) (s : string) : option (string * string) :=
  match s with
  | EmptyString => None
  | String c r =>
      if decide (c = sep) then Some (EmptyString, r)
      else match cut sep r with
           | Some (a, b) => Some (String c a, b)
           | None => None
           end
  end.

(** [strings.SplitN(s, sep, 2)]: at most two fields. *)
Definition SplitN2 (sep : ascii) (s : string) : list string :=
  match cut sep s with
  | Some (a, b) => [a; b]
  | None => [s]
  end.

End Strings.

Module Strconv.

Definition digit (c : ascii) : option Z :=
  let n := Z.of_nat (nat_of_ascii c) in
  if decide (48 ≤ n ≤ 57) then Some (n - 48) else None.

Fixpoint digits (acc : Z) (s : string) : option Z :=
  match s with
  | EmptyString => Some acc
  | String c r =>
      match digit c with
      | Some d => digits (acc * 10 + d) r
      | None => None
      end
  end.

(** [strconv.Atoi]: an optional sign, then at least one decimal digit and
    nothing else; a value outside [int] is an error as well.  [None] is
    the non-nil [err]. *)
Definition Atoi (s : string) : option Z :=
  match s with
  | EmptyString => None
  | String c r =>
      let neg := bool_decide (c = "-"%char) in
      let body := if decide (c = "-"%char ∨ c = "+"%char) then r else s in
      match body with
      | EmptyString => None
      | _ =>
          match digits 0 body with
          | None => None
          | Some un =>
              let n := if neg then - un else un in
              if decide (GoInt.in_range n) then Some n else None
          end
      end
  end.

(** [fmt.Sprintf("%d", n)]. *)
Definition Itoa (n : Z) : string := pretty n.

End Strconv.

(** ** [bufio.Scanner]

    The scanner is library code; what the program observes of it is the
    sequence of tokens (lines) it still has to deliver and the error, if
    any, with which the scan stops.  Once [Scan] has returned false it
    keeps returning false. *)
Module Bufio.

Record Scanner := mkScanner {
  pending : list string;   (* tokens not yet delivered *)
  failure : bool;          (* the scan ends with a non-nil [Err()] *)
}.

(** [Scan]: the result, the token [Text()] then returns, the new state. *)
Definition Scan (sc : Scanner) : bool * string * Scanner :=
  match pending sc with
  | t :: ts => (true, t, mkScanner ts (failure sc))
  | [] => (false, EmptyString, sc)
  end.

(** The scanner once [Scan] has returned false. *)
Definition exhausted (sc : Scanner) : Scanner := mkScanner [] (failure sc).

(** [Err()], called after [Scan] returned false. *)
Definition Err (sc : Scanner) : bool := failure sc.

End Bufio.

(** ** The catalog *)

Record BookInfo := mkBookInfo {
  ID : Z;
  Name : string;
  LineCount : Z;
  File : string;
}.

Global Instance BookInfo_eq_dec : EqDecision BookInfo.
Proof. solve_decision. Defined.

(** The zero value of [BookInfo], what [var sel BookInfo] holds. *)
Definition zeroBook : BookInfo := mkBookInfo 0 "" 0 "".

(** The body of the loop of [init] over the lines of the index: [None] is
    one of the three [continue]s, [Some b] is the book that is appended. *)
Definition parseLine (line : string) : option BookInfo :=
  match Strings.Split "|" line with
  | [p0; p1; p2] =>
      match Strconv.Atoi p0 with
      | None => None
      | Some id =>
          match Strconv.Atoi p2 with
          | None => None
          | Some cnt =>
              Some (mkBookInfo id p1 cnt (Strconv.Itoa id +:+ ".txt.gz"))
          end
      end
  | _ => None
  end.

(** [for scanner.Scan() { ... books = append(books, ...) }], the scanner
    given by the tokens it delivers. *)
Fixpoint scanBooks (tokens : list string) (books : list BookInfo)
  : list BookInfo :=
  match tokens with
  | [] => books
  | line :: rest =>
      match parseLine line with
      | None => scanBooks rest books
      | Some b => scanBooks rest (books ++ [b])
      end
  end.

Inductive LoadResult :=
| Fatal                                (* [log.Fatalf]  *)
| Loaded (books : list BookInfo).

(** The part of [init] that builds [books] from the index content (what
    follows the optional frontmatter). *)
Definition loadBooks (sc : Bufio.Scanner) : LoadResult :=
  let books := scanBooks (Bufio.pending sc) [] in
  if Bufio.Err (Bufio.exhausted sc) then Fatal
  else Loaded books.

(** ** The range resolver *)

(** The loop of [sliceRange] from index [i] on, [bs] being [books[i:]];
    the result is the final [(start, end)].  The second component is
    returned as it is at the [break]. *)
Fixpoint sliceLoop (lowID highID : Z) (bs : list BookInfo) (i start end_ : Z)
  : Z * Z :=
  match bs with
  | [] => (start, end_)
  | b :: rest =>
      let start := if decide (start < 0 ∧ lowID ≤ ID b) then i else start in
      let end_ := if decide (ID b ≤ highID) then i else end_ in
      if decide (highID < ID b) then (start, end_)
      else sliceLoop lowID highID rest (i + 1) start end_
  end.

(** [s[lo:hi]] for [0 ≤ lo ≤ hi ≤ len(s)]. *)
Definition subslice {A} (s : list A) (lo hi : Z) : list A :=
  drop (Z.to_nat lo) (take (Z.to_nat hi) s).

(** [sliceRange]; [nil] is the empty list. *)
Definition sliceRange (books : list BookInfo) (lowID highID : Z)
  : list BookInfo :=
  let '(start, end_) := sliceLoop lowID highID books 0 (-1) (-1) in
  if decide (0 ≤ start ∧ start ≤ end_) then subslice books start (end_ + 1)
  else [].

(** ** Categories and their labels *)

Record Category := mkCategory {
  Key : string;
  LowID : Z;
  HighID : Z;
}.

Definition categories : list Category :=
  [ mkCategory "ot" 10 460;
    mkCategory "nt" 470 730;
    mkCategory "pentateuch" 10 50;
    mkCategory "historical" 60 190;
    mkCategory "poetic" 220 260;
    mkCategory "major" 290 340;
    mkCategory "minor" 350 460;
    mkCategory "gospels" 470 500;
    mkCategory "apostolic" 510 720;
    mkCategory "acts" 510 510;
    mkCategory "paul" 520 650;
    mkCategory "general" 660 720;
    mkCategory "revelation" 730 730 ].

(** [s[i]] where the program has checked that [i] is in range. *)
Definition at_index (s : list BookInfo) (i : nat) : BookInfo :=
  default zeroBook (s !! i).

(** The label [init] stores in [catLabel] for the range of a category. *)
Definition rangeLabel (books : list BookInfo) (lowID highID : Z) : string :=
  let slice := sliceRange books lowID highID in
  if decide (length slice = 0%nat) then ""
  else if decide (lowID = highID) then Name (at_index slice 0)
  else
    let first := Name (at_index slice 0) in
    let last := Name (at_index slice (length slice - 1)) in
    first +:+ " — " +:+ last.

Record CategoryMaps := mkCategoryMaps {
  catMap : gmap string (Z * Z);
  catLabel : gmap string string;
}.

(** [for _, c := range categories { catMap[c.Key] = ...; catLabel[c.Key] = ... }] *)
Definition buildMaps (books : list BookInfo) (cats : list Category)
  : CategoryMaps :=
  fold_left
    (λ m c,
       mkCategoryMaps
         (<[Key c := (LowID c, HighID c)]> (catMap m))
         (<[Key c := rangeLabel books (LowID c) (HighID c)]> (catLabel m)))
    cats (mkCategoryMaps ∅ ∅).

(** ** The selector *)

(** The pool of [main]: every book, or the range of the category [narrow].
    [None] is the exit on a key that is not in [catMap]. *)
Definition selectionPool (books : list BookInfo) (m : CategoryMaps)
    (narrow : string) : option (list BookInfo) :=
  if decide (narrow = "") then Some books
  else match catMap m !! narrow with
       | None => None
       | Some (lowID, highID) => Some (sliceRange books lowID highID)
       end.

(** [total := 0; for _, b := range pool { total += b.LineCount }] *)
Definition totalLines (pool : list BookInfo) : Z :=
  fold_left (λ total b, GoInt.add total (LineCount b)) pool 0.

(** The walk that locates book and offset, from the running sum [cum] on.
    [None] is the loop running off the end of the pool, which leaves
    [sel] and [offset] at their zero values. *)
Fixpoint locate (cum : Z) (pool : list BookInfo) (choice : Z)
  : option (BookInfo * Z) :=
  match pool with
  | [] => None
  | b :: rest =>
      if decide (choice ≤ GoInt.add cum (LineCount b))
      then Some (b, GoInt.sub choice cum)
      else locate (GoInt.add cum (LineCount b)) rest choice
  end.

Inductive Outcome :=
| NoVerses                                  (* [trans.NoVersesError], exit *)
| IntnPanics                                (* [rng.Intn] on [n <= 0] *)
| Selected (sel : BookInfo) (offset : Z).

(** Lines 189 to 213 of [main]; [draw] is the value [rng.Intn(total)]
    returns, which the library promises to be in [[0, total)]. *)
Definition select (pool : list BookInfo) (draw : Z) : Outcome :=
  let total := totalLines pool in
  if decide (total = 0) then NoVerses
  else if decide (total ≤ 0) then IntnPanics
  else
    let choice := GoInt.add draw 1 in
    match locate 0 pool choice with
    | Some (sel, offset) => Selected sel offset
    | None => Selected zeroBook 0
    end.

(** ** The verse extractor *)

(** [for i := 1; i < offset; i++ { if !scanner.Scan() { break } }], by the
    number of iterations that are left. *)
Fixpoint skipLoop (n : nat) (sc : Bufio.Scanner) : Bufio.Scanner :=
  match n with
  | O => sc
  | S n' =>
      let '(ok, _, sc') := Bufio.Scan sc in
      if ok then skipLoop n' sc' else sc'
  end.

Definition skipTo (offset : Z) (sc : Bufio.Scanner) : Bufio.Scanner :=
  skipLoop (Z.to_nat (offset - 1)) sc.

(** What the body of the last loop prints for a line: the verse number set
    apart from the text, or the line as it is. *)
Inductive Verse :=
| Numbered (token text : string)
| Plain (line : string).

Definition verseOf (line : string) : Verse :=
  match Strings.SplitN2 " " line with
  | [p0; p1] => Numbered p0 p1
  | _ => Plain line
  end.

(** The record [{verseNumberToken, remainderText}] of a printed verse. *)
Definition record (v : Verse) : string * string :=
  match v with
  | Numbered token text => (token, text)
  | Plain line => ("", line)
  end.

(** [for scanner.Scan() { line := scanner.Text(); ... }] *)
Fixpoint verses (tokens : list string) : list Verse :=
  match tokens with
  | [] => []
  | line :: rest => verseOf line :: verses rest
  end.

(** The extraction of [main] from an opened stream: the verses printed and
    whether [scanner.Err()] is non-nil at the end. *)
Definition extract (sc : Bufio.Scanner) (offset : Z) : list Verse * bool :=
  let sc := skipTo offset sc in
  (verses (Bufio.pending sc), Bufio.Err (Bufio.exhausted sc)).

(** ** Sample data

    The two books of the end-to-end scenario of the specification, and a
    few more used to evaluate the program on concrete inputs. *)
Module Sample.
Definition genesis : BookInfo := mkBookInfo 10 "Genesis" 1533 "10.txt.gz".
Definition exodus : BookInfo := mkBookInfo 20 "Exodus" 1213 "20.txt.gz".
Definition acts : BookInfo := mkBookInfo 510 "Acts" 1007 "510.txt.gz".
Definition blank : BookInfo := mkBookInfo 15 "Blank" 0 "15.txt.gz".
Definition three : BookInfo := mkBookInfo 1 "Three" 3 "1.txt.gz".
Definition one : BookInfo := mkBookInfo 2 "One" 1 "2.txt.gz".
Definition huge : BookInfo := mkBookInfo 3 "Huge" (2 ^ 62) "3.txt.gz".
Definition catalog : list BookInfo := [genesis; exodus; acts].
Definition stream : Bufio.Scanner :=
  Bufio.mkScanner ["1:1 In the beginning"; "1:2 And the earth"; "Amen"] false.
End Sample.

(** ** Vocabulary of the specification *)

(** The sum of the line counts as a mathematical integer. *)
Definition sumLines (pool : list BookInfo) : Z :=
  foldr (λ b acc, LineCount b + acc) 0 pool.

(** The global line index of line [k] of the book at position [i]: the
    lines of the books before it, plus [k]. *)
Definition globalIndex (pool : list BookInfo) (i : nat) (k : Z) : Z :=
  sumLines (take i pool) + k.

Definition nonNegative (pool : list BookInfo) : Prop :=
  Forall (λ b, 0 ≤ LineCount b) pool.

(** Book IDs in ascending order, gaps and repetitions allowed. *)
Definition ascendingIDs (books : list BookInfo) : Prop :=
  Sorted (λ a b, ID a ≤ ID b) books.

(** The books of the catalog whose ID lies in the inclusive interval, in
    catalog order: the interval filter over the whole catalog. *)
Definition booksInRange (books : list BookInfo) (lowID highID : Z)
  : list BookInfo :=
  filter (λ b, lowID ≤ ID b ≤ highID) books.

(** Book IDs in strictly ascending order: sorted and unique. *)
Definition strictlyAscendingIDs (books : list BookInfo) : Prop :=
  Sorted (λ a b, ID a < ID b) books.

(** Whether the byte [c] occurs in [s]. *)
Fixpoint hasByte (c : ascii) (s : string) : bool :=
  match s with
  | EmptyString => false
  | String d r => if decide (d = c) then true else hasByte c r
  end.

(** [line] is a well-formed record of the book [b]: three fields separated
    by two pipes, the first and the third integers that [strconv.Atoi]
    reads, the second the name. *)
Definition wellFormed (line : string) (b : BookInfo) : Prop :=
  ∃ f0 f2,
    line = f0 +:+ String "|" (Name b +:+ String "|" f2)
    ∧ hasByte "|" f0 = false ∧ hasByte "|" (Name b) = false
    ∧ hasByte "|" f2 = false
    ∧ Strconv.Atoi f0 = Some (ID b) ∧ Strconv.Atoi f2 = Some (LineCount b)
    ∧ File b = Strconv.Itoa (ID b) +:+ ".txt.gz".

(** The IDs of the well-formed records among the lines, in input order. *)
Definition recordIDs (tokens : list string) : list Z :=
  omap (λ line, ID <$> parseLine line) tokens.

(** The split "on the first whitespace boundary" in the words of the
    specification, with the white space of ASCII (Go's [unicode.IsSpace]
    below U+0080): space, tab, line feed, vertical tab, form feed and
    carriage return.  It is compared below with what the program does. *)
Definition specIsWhitespace (c : ascii) : bool :=
  bool_decide (c ∈ [" "%char; "009"%char; "010"%char; "011"%char;
                    "012"%char; "013"%char]).

Fixpoint specCutWhitespace (s : string) : option (string * string) :=
  match s with
  | EmptyString => None
  | String c r =>
      if specIsWhitespace c then Some (EmptyString, r)
      else match specCutWhitespace r with
           | Some (a, b) => Some (String c a, b)
           | None => None
           end
  end.

Definition specSplitFirstWhitespace (line : string) : string * string :=
  match specCutWhitespace line with
  | Some (token, text) => (token, text)
  | None => ("", line)
  end.

(** ** The frontmatter of the index *)

(** The messages of the index frontmatter. *)
Record Translations := mkTranslations {
  LanguageCode : string;
  InvalidParamMessage : string;
  AcceptedValuesMessage : string;
  NoVersesError : string;
}.

Definition zeroTranslations : Translations := mkTranslations "" "" "" "".

(** The line feed, ["\n"]. *)
Definition nl : string := String "010" EmptyString.

(** The [bytes] functions of [init]; byte slices are strings here. *)
Module Bytes.

(** [bytes.HasPrefix(s, prefix)] *)
Definition HasPrefix (s pre : string) : bool := String.prefix pre s.

(** [s[n:]] *)
Fixpoint from (n : nat) (s : string) : string :=
  match n, s with
  | O, _ => s
  | S n', String _ r => from n' r
  | S _, EmptyString => EmptyString
  end.

(** [bytes.Index] and the two sub-slices around the first occurrence of
    [sep]: [s[:m]] and [s[m+len(sep):]]. *)
Fixpoint cutAt (sep s : string) : option (string * string) :=
  if String.prefix sep s then Some (EmptyString, from (String.length sep) s)
  else match s with
       | EmptyString => None
       | String c r =>
           match cutAt sep r with
           | Some (a, b) => Some (String c a, b)
           | None => None
           end
       end.

(** [bytes.SplitN(s, sep, 2)] *)
Definition SplitN2 (s sep : string) : list string :=
  match cutAt sep s with
  | Some (a, b) => [a; b]
  | None => [s]
  end.

End Bytes.

Inductive Frontmatter :=
| FrontFatal                      (* [log.Fatalf]: the YAML does not parse *)
| FrontPanic                      (* [parts[1]]: index out of range *)
| FrontOK (trans : Translations) (content : string).

(** The frontmatter step of [init].  [unmarshal] is [yaml.Unmarshal] into
    the zero [trans]: [None] is its error. *)
Definition splitFrontmatter (unmarshal : string → option Translations)
    (raw : string) : Frontmatter :=
  if Bytes.HasPrefix raw ("---" +:+ nl) then
    let parts := Bytes.SplitN2 raw (nl +:+ "---" +:+ nl) in
    match unmarshal (default EmptyString (parts !! 0%nat)) with
    | None => FrontFatal
    | Some trans =>
        match parts !! 1%nat with
        | Some content => FrontOK trans content
        | None => FrontPanic
        end
    end
  else FrontOK zeroTranslations raw.

(** ** The program [main] *)

Record Flags := mkFlags {
  narrow : string;      (* [-narrow] *)
  colorize : bool;      (* [-c] *)
}.

(** An embedded file as the program sees it: [gzip.NewReader] rejects it,
    or it decompresses to lines, up to the end or to a read error. *)
Inductive FileData :=
| NotGzip
| Gzip (sc : Bufio.Scanner).

(** What is written to standard error. *)
Inductive Written :=
| Formatted (format arg : string)   (* [Fprintf] with a format of [trans] *)
| Text (s : string)                 (* these bytes *)
| ScanFailure.                      (* ["error reading verses:"] and the error *)

Inductive Status :=
| Returns                           (* [main] returns *)
| Exits (code : Z)                  (* [os.Exit(code)] *)
| Panics.                           (* the panic of [rng.Intn] *)

Record Run := mkRun {
  stdout : string;
  stderr : list Written;
  status : Status;
}.

(** The ANSI codes of [-c]. *)
Definition colorPrefix (c : bool) : string :=
  if c then String "027" "[32m" else "".
Definition colorSuffix (c : bool) : string :=
  if c then String "027" "[0m" else "".

(** ["%s (line %s%d%s/%s%d%s)\n\n"] *)
Definition header (sel : BookInfo) (offset : Z) (pre suf : string) : string :=
  Name sel +:+ " (line " +:+ pre +:+ Strconv.Itoa offset +:+ suf +:+ "/"
  +:+ pre +:+ Strconv.Itoa (LineCount sel) +:+ suf +:+ ")" +:+ nl +:+ nl.

(** The line printed for a verse: ["%s%s%s %s\n"], or [Println(line)]. *)
Definition printVerse (pre suf : string) (v : Verse) : string :=
  match v with
  | Numbered token text => pre +:+ token +:+ suf +:+ " " +:+ text +:+ nl
  | Plain line => line +:+ nl
  end.

Definition concatStrings (l : list string) : string :=
  foldr String.append EmptyString l.

(** The report of a [-narrow] that is no key of [catMap]. *)
Definition invalidNarrow (trans : Translations) (m : CategoryMaps)
    (key : string) : Run :=
  mkRun ""
    (Formatted (InvalidParamMessage trans +:+ nl) key
     :: Text (AcceptedValuesMessage trans +:+ nl)
     :: ((λ c, Text ("  " +:+ Key c +:+ " — "
                     +:+ default "" (catLabel m !! Key c) +:+ nl))
           <$> categories))
    (Exits 1).

(** [fmt.Fprintln(os.Stderr, trans.NoVersesError); os.Exit(1)] *)
Definition noVerses (trans : Translations) : Run :=
  mkRun "" [Text (NoVersesError trans +:+ nl)] (Exits 1).

(** [bibleFS.Open(name)]: the embedded file of that name; no embedded
    file has the empty name, which is no valid path. *)
Definition openFile (fs : gmap string FileData) (name : string)
  : option FileData :=
  if decide (name = "") then None else fs !! name.

(** [main], on the state [init] leaves, the embedded files by name, the
    flags and the value [rng.Intn] returns. *)
Definition main (trans : Translations) (books : list BookInfo)
    (m : CategoryMaps) (fs : gmap string FileData) (flags : Flags)
    (draw : Z) : Run :=
  let pre := colorPrefix (colorize flags) in
  let suf := colorSuffix (colorize flags) in
  match selectionPool books m (narrow flags) with
  | None => invalidNarrow trans m (narrow flags)
  | Some pool =>
      match select pool draw with
      | NoVerses => noVerses trans
      | IntnPanics => mkRun "" [] Panics
      | Selected sel offset =>
          match openFile fs (File sel) with
          | None => noVerses trans              (* [bibleFS.Open] fails *)
          | Some NotGzip => noVerses trans      (* [gzip.NewReader] fails *)
          | Some (Gzip sc) =>
              let '(vs, failed) := extract sc offset in
              let out :=
                header sel offset pre suf
                +:+ concatStrings (printVerse pre suf <$> vs) in
              if failed then mkRun out [ScanFailure] (Exits 1)
              else mkRun out [] Returns
          end
      end
  end.

(** ** More vocabulary *)

(** The longest prefix of a list whose elements satisfy [P], and what is
    left once the leading elements that satisfy [P] are dropped. *)
Fixpoint takeWhile {A} (P : A → Prop) `{∀ x, Decision (P x)} (l : list A)
  : list A :=
  match l with
  | [] => []
  | x :: r => if decide (P x) then x :: takeWhile P r else []
  end.

Fixpoint dropWhile {A} (P : A → Prop) `{∀ x, Decision (P x)} (l : list A)
  : list A :=
  match l with
  | [] => []
  | x :: r => if decide (P x) then dropWhile P r else l
  end.

(** The line that opens the frontmatter, ["---\n"], and the one that
    closes it with the line feed before it, ["\n---\n"]. *)
Definition fence : string := "---" +:+ nl.
Definition closingFence : string := nl +:+ "---" +:+ nl.

(** Whether [sep] occurs in [s] as a substring. *)
Fixpoint occurs (sep s : string) : bool :=
  if String.prefix sep s then true
  else match s with
       | EmptyString => false
       | String _ r => occurs sep r
       end.

(** The lines of the content of a book, when its file is there and
    decompresses, and the text of a pool: the lines of its books one
    after the other. *)
Definition linesOf (fs : gmap string FileData) (b : BookInfo) : list string :=
  match openFile fs (File b) with
  | Some (Gzip sc) => Bufio.pending sc
  | _ => []
  end.

Definition poolText (fs : gmap string FileData) (pool : list BookInfo)
  : list string :=
  concat (linesOf fs <$> pool).

(** The index and the files agree: the file of the book is there, it
    decompresses without error, and it has as many lines as the index
    says. *)
Definition consistent (fs : gmap string FileData) (b : BookInfo) : Prop :=
  ∃ sc, openFile fs (File b) = Some (Gzip sc)
        ∧ Bufio.failure sc = false
        ∧ Z.of_nat (length (Bufio.pending sc)) = LineCount b.

(** More sample data: a book of three lines with its embedded file, a
    file that is no gzip stream, and the messages of a frontmatter. *)
Module SampleRun.
Definition three : BookInfo := mkBookInfo 1 "Three" 3 "1.txt.gz".
Definition files : gmap string FileData :=
  <["1.txt.gz" := Gzip (Bufio.mkScanner
                          ["1:1 In the beginning"; "1:2 And the earth";
                           "Amen"] false)]>
  (<["2.txt.gz" := NotGzip]> ∅).
Definition trans : Translations :=
  mkTranslations "en" "invalid: %s" "accepted values:" "no verses".
End SampleRun.

(** ** Proof steps *)

(** The index after one more book: [len(pref ++ [b])] is [len(pref) + 1]. *)
Ltac next_index pref H :=
  rewrite length_app in H; simpl in H;
  replace (Z.of_nat (length pref + 1)) with (Z.of_nat (length pref) + 1)
    in H by lia;
  replace (Z.of_nat (length pref) + 1 - 1) with (Z.of_nat (length pref))
    in H by lia.

(** * Properties *)

(** ** Arithmetic on [int] *)

Lemma wrap_in_range z : GoInt.in_range (GoInt.wrap z).
Proof.
  unfold GoInt.in_range, GoInt.wrap, GoInt.min_int, GoInt.max_int.
  pose proof (Z.mod_pos_bound (z + 2 ^ 63) (2 ^ 64) ltac:(lia)). lia.
Qed.

Lemma wrap_small z : GoInt.in_range z → GoInt.wrap z = z.
Proof.
  unfold GoInt.in_range, GoInt.wrap, GoInt.min_int, GoInt.max_int.
  intros Hz. rewrite Z.mod_small; lia.
Qed.

Lemma add_zero_r z : GoInt.in_range z → GoInt.add z 0 = z.
Proof. intros Hz. unfold GoInt.add. rewrite Z.add_0_r. by apply wrap_small. Qed.

Lemma zero_in_range : GoInt.in_range 0.
Proof. unfold GoInt.in_range, GoInt.min_int, GoInt.max_int. lia. Qed.

(** ** The selector *)

Lemma sumLines_app p q : sumLines (p ++ q) = sumLines p + sumLines q.
Proof. induction p as [|b p IH]; simpl; lia. Qed.

Lemma sumLines_nonneg pool : nonNegative pool → 0 ≤ sumLines pool.
Proof. induction 1; simpl; lia. Qed.

Lemma sumLines_take_S pool i b :
  pool !! i = Some b →
  sumLines (take (S i) pool) = sumLines (take i pool) + LineCount b.
Proof.
  intros Hi. rewrite (take_S_r _ _ _ Hi), sumLines_app. simpl. lia.
Qed.

Lemma sumLines_take_le pool i :
  nonNegative pool → sumLines (take i pool) ≤ sumLines pool.
Proof.
  intros Hnn. rewrite <- (take_drop i pool) at 2. rewrite sumLines_app.
  assert (0 ≤ sumLines (drop i pool)); [|lia].
  apply sumLines_nonneg. by apply Forall_drop.
Qed.

Lemma sumLines_take_mono pool i j :
  nonNegative pool → (i ≤ j)%nat →
  sumLines (take i pool) ≤ sumLines (take j pool).
Proof.
  intros Hnn Hij. replace (take i pool) with (take i (take j pool)).
  - apply sumLines_take_le. by apply Forall_take.
  - rewrite take_take. f_equal. lia.
Qed.

(** The running total never leaves [int]. *)
Lemma total_from_in_range pool cum :
  GoInt.in_range cum →
  GoInt.in_range (fold_left (λ total b, GoInt.add total (LineCount b)) pool cum).
Proof.
  revert cum. induction pool as [|b pool IH]; intros cum Hc; simpl; [done|].
  apply IH, wrap_in_range.
Qed.

(** Without overflow the running total is the mathematical sum. *)
Lemma total_from_exact pool cum :
  nonNegative pool → 0 ≤ cum → cum + sumLines pool ≤ GoInt.max_int →
  fold_left (λ total b, GoInt.add total (LineCount b)) pool cum
  = cum + sumLines pool.
Proof.
  intros Hnn. revert cum.
  induction Hnn as [|b pool Hb Hnn IH]; intros cum Hc Hmax; simpl in *; [lia|].
  pose proof (sumLines_nonneg _ Hnn).
  unfold GoInt.add. rewrite wrap_small.
  - rewrite IH; lia.
  - unfold GoInt.in_range, GoInt.min_int. lia.
Qed.

(** For non-negative counts whose sum fits in an [int], the total of the
    program is the sum. *)
Lemma totalLines_exact pool :
  nonNegative pool → sumLines pool ≤ GoInt.max_int →
  totalLines pool = sumLines pool.
Proof.
  intros Hnn Hfit. unfold totalLines.
  rewrite total_from_exact by (done || lia). lia.
Qed.

(** A total that is the mathematical sum means that the sum fits in an
    [int]. *)
Lemma total_exact_fits pool :
  totalLines pool = sumLines pool → sumLines pool ≤ GoInt.max_int.
Proof.
  intros <-. apply (total_from_in_range pool 0 zero_in_range).
Qed.

(** The walk stops inside the pool whenever the choice is above the running
    sum and within the total the first loop computes from it, whatever the
    signs of the counts and even if a sum wraps around; the book it stops
    at has a line count other than zero. *)
Lemma locate_finds pool cum choice :
  GoInt.in_range cum → cum < choice →
  choice ≤ fold_left (λ total b, GoInt.add total (LineCount b)) pool cum →
  ∃ i b k, pool !! i = Some b ∧ locate cum pool choice = Some (b, k)
           ∧ LineCount b ≠ 0 ∧ (0 ≤ LineCount b → 1 ≤ LineCount b).
Proof.
  revert cum. induction pool as [|b pool IH]; intros cum Hr Hlt Hle; simpl in *.
  - lia.
  - destruct (decide (choice ≤ GoInt.add cum (LineCount b))) as [Hin|Hout].
    + exists 0%nat, b, (GoInt.sub choice cum). split; [done|]. split; [done|].
      assert (LineCount b ≠ 0); [|lia].
      intros Hz. rewrite Hz, add_zero_r in Hin by done. lia.
    + destruct (IH (GoInt.add cum (LineCount b))) as (i & b' & k & Hi & Hloc & Hnz);
        [apply wrap_in_range | lia | done |].
      by exists (S i), b', k.
Qed.

(** Without overflow the walk stops at the book whose block of global
    indices contains the choice, with the position inside the block. *)
Lemma locate_exact pool cum choice :
  nonNegative pool → 0 ≤ cum → cum + sumLines pool ≤ GoInt.max_int →
  cum < choice ≤ cum + sumLines pool →
  ∃ i b, pool !! i = Some b
         ∧ locate cum pool choice
           = Some (b, choice - cum - sumLines (take i pool))
         ∧ 1 ≤ choice - cum - sumLines (take i pool) ≤ LineCount b.
Proof.
  intros Hnn. revert cum.
  induction Hnn as [|b pool Hb Hnn IH]; intros cum Hc Hmax Hch; simpl in *; [lia|].
  pose proof (sumLines_nonneg _ Hnn) as Hs.
  assert (GoInt.add cum (LineCount b) = cum + LineCount b) as ->.
  { apply wrap_small. unfold GoInt.in_range, GoInt.min_int. lia. }
  destruct (decide (choice ≤ cum + LineCount b)) as [Hin|Hout].
  - exists 0%nat, b. simpl. split; [done|]. split; [|lia].
    unfold GoInt.sub. rewrite wrap_small, Z.sub_0_r; [done|].
    unfold GoInt.in_range, GoInt.min_int. lia.
  - destruct (IH (cum + LineCount b)) as (i & b' & Hi & Hloc & Hk); [lia..|].
    exists (S i), b'. simpl. split; [done|].
    replace (choice - cum - (LineCount b + sumLines (take i pool)))
      with (choice - (cum + LineCount b) - sumLines (take i pool)) by lia.
    done.
Qed.

(** Two lines of the pool with the same global index are the same line. *)
Lemma globalIndex_inj pool i b k i' b' k' :
  nonNegative pool →
  pool !! i = Some b → 1 ≤ k ≤ LineCount b →
  pool !! i' = Some b' → 1 ≤ k' ≤ LineCount b' →
  globalIndex pool i k = globalIndex pool i' k' → i = i' ∧ k = k'.
Proof.
  intros Hnn Hi Hk Hi' Hk'. unfold globalIndex. intros Heq.
  destruct (lt_eq_lt_dec i i') as [[Hlt|Heqi]|Hgt].
  - pose proof (sumLines_take_mono pool (S i) i' Hnn ltac:(lia)) as Hm.
    rewrite (sumLines_take_S _ _ _ Hi) in Hm. lia.
  - subst i'. split; [done|lia].
  - pose proof (sumLines_take_mono pool (S i') i Hnn ltac:(lia)) as Hm.
    rewrite (sumLines_take_S _ _ _ Hi') in Hm. lia.
Qed.

Lemma globalIndex_bounds pool i b k :
  nonNegative pool → pool !! i = Some b → 1 ≤ k ≤ LineCount b →
  1 ≤ globalIndex pool i k ≤ sumLines pool.
Proof.
  intros Hnn Hi Hk. unfold globalIndex.
  pose proof (sumLines_nonneg (take i pool) (Forall_take _ _ _ Hnn)).
  pose proof (sumLines_take_le pool (S i) Hnn) as Hle.
  rewrite (sumLines_take_S _ _ _ Hi) in Hle. lia.
Qed.

(** [select] on a positive total and a draw of [rng.Intn(total)]. *)
Lemma select_positive pool draw :
  1 ≤ totalLines pool → 0 ≤ draw < totalLines pool →
  select pool draw
  = match locate 0 pool (draw + 1) with
    | Some (sel, offset) => Selected sel offset
    | None => Selected zeroBook 0
    end.
Proof.
  intros Ht Hd. unfold select.
  pose proof (total_from_in_range pool 0 zero_in_range) as Hr.
  fold (totalLines pool) in Hr.
  destruct (decide (totalLines pool = 0)); [lia|].
  destruct (decide (totalLines pool ≤ 0)); [lia|].
  unfold GoInt.add at 1. rewrite wrap_small; [done|].
  unfold GoInt.in_range, GoInt.min_int in *. lia.
Qed.

(** The total is an [int]: line counts whose sum does not fit wrap around,
    and the total is then not the sum of the counts. *)
Remark totalLines_wraps :
  totalLines [Sample.huge; Sample.huge; Sample.huge; Sample.huge; Sample.one]
  = 1
  ∧ sumLines [Sample.huge; Sample.huge; Sample.huge; Sample.huge; Sample.one]
    = 2 ^ 64 + 1.
Proof. by vm_compute. Qed.

(** C1.  For a pool of non-negative line counts whose total is the sum of
    the counts and at least 1, the selector maps the choices of [1, total]
    one to one onto the lines of the pool: every choice selects the book at
    some position [i] with an offset [k], [1 ≤ k ≤ lineCount], and is the
    global index of that line, which no other line has; and every line
    [(i, k)] of the pool is selected by the choice that is its global
    index, which lies in [1, total].  So each line is drawn by exactly one
    of the [total] equally likely choices. *)
Theorem select_lines_bijection pool :
  nonNegative pool → totalLines pool = sumLines pool → 1 ≤ totalLines pool →
  (∀ choice, 1 ≤ choice ≤ totalLines pool →
     ∃ i b k, pool !! i = Some b ∧ 1 ≤ k ≤ LineCount b
       ∧ select pool (choice - 1) = Selected b k
       ∧ globalIndex pool i k = choice
       ∧ ∀ i' b' k', pool !! i' = Some b' → 1 ≤ k' ≤ LineCount b' →
           globalIndex pool i' k' = choice → i' = i ∧ k' = k)
  ∧ (∀ i b k, pool !! i = Some b → 1 ≤ k ≤ LineCount b →
       1 ≤ globalIndex pool i k ≤ totalLines pool
       ∧ select pool (globalIndex pool i k - 1) = Selected b k).
Proof.
  intros Hnn Hsum Hpos.
  pose proof (total_exact_fits pool Hsum) as Hfit.
  assert (∀ choice, 1 ≤ choice ≤ totalLines pool →
     ∃ i b k, pool !! i = Some b ∧ 1 ≤ k ≤ LineCount b
       ∧ select pool (choice - 1) = Selected b k
       ∧ globalIndex pool i k = choice) as Hfwd.
  { intros choice Hch.
    destruct (locate_exact pool 0 choice Hnn) as (i & b & Hi & Hloc & Hk);
      [lia..|].
    exists i, b, (choice - 0 - sumLines (take i pool)).
    split; [done|]. split; [done|]. split.
    - rewrite select_positive by lia.
      replace (choice - 1 + 1) with choice by lia. by rewrite Hloc.
    - unfold globalIndex. lia. }
  split.
  - intros choice Hch.
    destruct (Hfwd choice Hch) as (i & b & k & Hi & Hk & Hsel & Hg).
    exists i, b, k. repeat (split; [done|]).
    intros i' b' k' Hi' Hk' Hg'.
    eapply globalIndex_inj; eauto. congruence.
  - intros i b k Hi Hk.
    pose proof (globalIndex_bounds pool i b k Hnn Hi Hk) as Hb.
    split; [lia|].
    destruct (Hfwd (globalIndex pool i k) ltac:(lia))
      as (i' & b' & k' & Hi' & Hk' & Hsel & Hg).
    destruct (globalIndex_inj pool i' b' k' i b k) as [-> ->]; try done.
    rewrite Hsel. congruence.
Qed.

Lemma select_lines_bijection_witness :
  select [Sample.three; Sample.one] (globalIndex [Sample.three; Sample.one] 1 1 - 1)
  = Selected Sample.one 1.
Proof.
  apply (select_lines_bijection [Sample.three; Sample.one]).
  - repeat constructor; simpl; lia.
  - reflexivity.
  - vm_compute. discriminate.
  - reflexivity.
  - simpl. lia.
Defined.

(** C3 as the program has it.  For a pool of non-negative line counts
    whose sum fits an [int], [select] ends in the "no verses" outcome
    exactly when the sum of the line counts is 0; when the sum is positive
    (and the draw is one that [rng.Intn] can return) a selection is
    produced and the error branch is not taken: the book at a position [i]
    of the pool with an offset [k], [1 ≤ k ≤ lineCount], the line whose
    global index is the draw plus 1. *)
Theorem select_no_verses_iff pool draw :
  nonNegative pool → sumLines pool ≤ GoInt.max_int →
  (select pool draw = NoVerses ↔ sumLines pool = 0)
  ∧ (0 < sumLines pool → 0 ≤ draw < sumLines pool →
     ∃ i b k, select pool draw = Selected b k ∧ pool !! i = Some b
              ∧ 1 ≤ k ≤ LineCount b ∧ globalIndex pool i k = draw + 1).
Proof.
  intros Hnn Hfit.
  pose proof (totalLines_exact pool Hnn Hfit) as Htot. split.
  - unfold select. rewrite Htot.
    destruct (decide (sumLines pool = 0)) as [Hz|Hnz]; [done|].
    split; [|done]. destruct (decide (sumLines pool ≤ 0)); [done|].
    by destruct (locate 0 pool (GoInt.add draw 1)) as [[sel offset]|].
  - intros Hpos Hd. rewrite select_positive by lia.
    destruct (locate_exact pool 0 (draw + 1) Hnn) as (i & b & Hi & Hloc & Hk);
      [lia..|].
    exists i, b, (draw + 1 - 0 - sumLines (take i pool)).
    rewrite Hloc. split; [done|]. split; [done|]. split; [done|].
    unfold globalIndex. lia.
Qed.

Lemma select_no_verses_iff_witness :
  (select [Sample.genesis; Sample.exodus] 1533 = NoVerses
   ↔ sumLines [Sample.genesis; Sample.exodus] = 0)
  ∧ ∃ i b k, select [Sample.genesis; Sample.exodus] 1533 = Selected b k
             ∧ [Sample.genesis; Sample.exodus] !! i = Some b
             ∧ 1 ≤ k ≤ LineCount b
             ∧ globalIndex [Sample.genesis; Sample.exodus] i k = 1533 + 1.
Proof.
  assert (nonNegative [Sample.genesis; Sample.exodus]) as Hnn
    by (repeat constructor; simpl; lia).
  assert (sumLines [Sample.genesis; Sample.exodus] ≤ GoInt.max_int) as Hfit
    by (vm_compute; discriminate).
  split.
  - apply (select_no_verses_iff [Sample.genesis; Sample.exodus] 1533 Hnn Hfit).
  - apply (select_no_verses_iff [Sample.genesis; Sample.exodus] 1533 Hnn Hfit).
    + vm_compute. reflexivity.
    + vm_compute. split; [discriminate | reflexivity].
Defined.

(** C3 as stated fails where the sum does not fit an [int], the total
    being computed in [int].  Four books of 2^62 lines have a sum of 2^64,
    which is not 0, and the total wraps around to 0: the outcome is "no
    verses".  Two such books have the positive sum 2^63, and the total
    wraps around to a negative number: no selection is produced, [rng.Intn]
    panics. *)
Lemma select_overflow_counterexample :
  nonNegative [Sample.huge; Sample.huge; Sample.huge; Sample.huge]
  ∧ sumLines [Sample.huge; Sample.huge; Sample.huge; Sample.huge] = 2 ^ 64
  ∧ select [Sample.huge; Sample.huge; Sample.huge; Sample.huge] 0 = NoVerses
  ∧ sumLines [Sample.huge; Sample.huge] = 2 ^ 63
  ∧ select [Sample.huge; Sample.huge] 0 = IntnPanics.
Proof.
  split; [repeat constructor; by vm_compute|].
  repeat split; by vm_compute.
Qed.

(** C6.  In a pool with a total of at least 1, a book with no lines is
    never the one [select] returns: the walk passes it, no error arises,
    and the selection is a book of the pool whose line count is not zero,
    hence at least 1 as the line counts are non-negative. *)
Theorem zero_line_book_never_selected pool z draw :
  z ∈ pool → LineCount z = 0 →
  1 ≤ totalLines pool → 0 ≤ draw < totalLines pool →
  ∃ i b k, select pool draw = Selected b k ∧ pool !! i = Some b
           ∧ b ≠ z ∧ LineCount b ≠ 0
           ∧ (nonNegative pool → 1 ≤ LineCount b).
Proof.
  intros _ Hz Hpos Hd. rewrite select_positive by lia.
  destruct (locate_finds pool 0 (draw + 1))
    as (i & b & k & Hi & Hloc & Hnz & Hge);
    [apply zero_in_range | lia | fold (totalLines pool); lia |].
  exists i, b, k. rewrite Hloc. split; [done|]. split; [done|].
  split; [congruence|]. split; [done|]. intros Hnn.
  apply Hge. eapply (proj1 (Forall_lookup _ _) Hnn); eauto.
Qed.

Lemma zero_line_book_never_selected_witness :
  ∃ i b k, select [Sample.genesis; Sample.blank; Sample.exodus] 1533
           = Selected b k
           ∧ [Sample.genesis; Sample.blank; Sample.exodus] !! i = Some b
           ∧ b ≠ Sample.blank ∧ LineCount b ≠ 0
           ∧ (nonNegative [Sample.genesis; Sample.blank; Sample.exodus] →
              1 ≤ LineCount b).
Proof.
  apply (zero_line_book_never_selected
           [Sample.genesis; Sample.blank; Sample.exodus] Sample.blank 1533).
  - apply list_elem_of_lookup. by exists 1%nat.
  - reflexivity.
  - vm_compute. discriminate.
  - vm_compute. split; [discriminate | reflexivity].
Defined.

(** C10.  When the total is at least 1 and the choice lies in [1, total],
    the walk stops at a book of the pool: it never runs off the end, and
    the selected book is not the zero value.  This needs no assumption on
    the signs of the line counts, so it holds in particular for the pools
    of non-negative counts. *)
Theorem locate_never_falls_through pool choice :
  1 ≤ totalLines pool → 1 ≤ choice ≤ totalLines pool →
  ∃ b k, locate 0 pool choice = Some (b, k) ∧ b ∈ pool ∧ b ≠ zeroBook.
Proof.
  intros Hpos Hch.
  destruct (locate_finds pool 0 choice) as (i & b & k & Hi & Hloc & Hnz & _);
    [apply zero_in_range | lia | fold (totalLines pool); lia |].
  exists b, k. split; [done|]. split.
  - apply list_elem_of_lookup. by exists i.
  - intros ->. by apply Hnz.
Qed.

Lemma locate_never_falls_through_witness :
  ∃ b k, locate 0 [Sample.three; Sample.one] 4 = Some (b, k)
         ∧ b ∈ [Sample.three; Sample.one] ∧ b ≠ zeroBook.
Proof.
  apply (locate_never_falls_through [Sample.three; Sample.one] 4);
    vm_compute; done.
Defined.

(** ** The range resolver *)

Lemma ascendingIDs_strong books :
  ascendingIDs books → StronglySorted (λ a b, ID a ≤ ID b) books.
Proof.
  apply Sorted_StronglySorted. intros a b c Hab Hbc. lia.
Qed.

Lemma subslice_prefix {A} (pref rest : list A) start :
  0 ≤ start →
  subslice (pref ++ rest) start (Z.of_nat (length pref))
  = drop (Z.to_nat start) pref.
Proof.
  intros Hs. unfold subslice. rewrite Nat2Z.id.
  by rewrite take_app_length.
Qed.

(** Past the upper bound nothing of a sorted catalog is in the interval. *)
Lemma booksInRange_above low high b rest :
  StronglySorted (λ a b, ID a ≤ ID b) (b :: rest) → high < ID b →
  booksInRange (b :: rest) low high = [].
Proof.
  intros Hs Hb. apply StronglySorted_inv in Hs as [_ Hall].
  unfold booksInRange. rewrite filter_cons_False by lia.
  induction Hall as [|c rest Hc Hall IH]; [done|].
  rewrite filter_cons_False by lia. done.
Qed.

(** The loop once [start] is set: [start] stays, and the slice runs from
    [start] over the books of the interval that are still to come. *)
Lemma sliceLoop_found low high bs :
  ∀ pref start,
  StronglySorted (λ a b, ID a ≤ ID b) bs → Forall (λ b, low ≤ ID b) bs →
  0 ≤ start < Z.of_nat (length pref) →
  ∃ e, sliceLoop low high bs (Z.of_nat (length pref)) start
         (Z.of_nat (length pref) - 1) = (start, e)
       ∧ start ≤ e
       ∧ subslice (pref ++ bs) start (e + 1)
         = drop (Z.to_nat start) pref ++ booksInRange bs low high.
Proof.
  induction bs as [|b rest IH]; intros pref start Hs Hlow Hst; simpl.
  - exists (Z.of_nat (length pref) - 1). split; [done|]. split; [lia|].
    replace (Z.of_nat (length pref) - 1 + 1) with (Z.of_nat (length pref)) by lia.
    rewrite subslice_prefix by lia. unfold booksInRange. simpl.
    by rewrite app_nil_r.
  - apply Forall_cons in Hlow as [Hb Hlow].
    destruct (decide (start < 0 ∧ low ≤ ID b)) as [?|_]; [lia|].
    destruct (decide (high < ID b)) as [Habove|Hbelow].
    + destruct (decide (ID b ≤ high)); [lia|].
      exists (Z.of_nat (length pref) - 1). split; [done|]. split; [lia|].
      replace (Z.of_nat (length pref) - 1 + 1) with (Z.of_nat (length pref)) by lia.
      rewrite subslice_prefix by lia.
      rewrite booksInRange_above by done. by rewrite app_nil_r.
    + destruct (decide (ID b ≤ high)); [|lia].
      destruct (IH (pref ++ [b]) start) as (e & Hloop & Hle & Hsub).
      * by apply StronglySorted_inv in Hs as [? _].
      * done.
      * rewrite length_app. simpl. lia.
      * next_index pref Hloop.
        exists e. split; [done|]. split; [done|].
        rewrite <- app_assoc in Hsub. simpl in Hsub. rewrite Hsub.
        unfold booksInRange. rewrite filter_cons_True by lia.
        rewrite drop_app_le by (rewrite <- Nat2Z.id; lia).
        by rewrite <- app_assoc.
Qed.

(** The loop while [start] is still negative. *)
Lemma sliceLoop_unfound low high bs :
  ∀ pref start s e,
  StronglySorted (λ a b, ID a ≤ ID b) bs → start < 0 →
  sliceLoop low high bs (Z.of_nat (length pref)) start
    (Z.of_nat (length pref) - 1) = (s, e) →
  (if decide (0 ≤ s ∧ s ≤ e) then subslice (pref ++ bs) s (e + 1) else [])
  = booksInRange bs low high.
Proof.
  induction bs as [|b rest IH]; intros pref start s e Hs Hst; simpl.
  - intros [= <- <-]. by destruct (decide (0 ≤ start ∧ _)); [lia|].
  - destruct (decide (high < ID b)) as [Habove|Hbelow].
    + destruct (decide (ID b ≤ high)); [lia|].
      intros [= <- <-]. rewrite booksInRange_above by done.
      destruct (decide (start < 0 ∧ low ≤ ID b));
        by destruct (decide (0 ≤ _ ∧ _)); [lia|].
    + destruct (decide (ID b ≤ high)); [|lia].
      pose proof Hs as [Hs' Hall]%StronglySorted_inv.
      destruct (decide (start < 0 ∧ low ≤ ID b)) as [[_ Hb]|Hnb].
      * intros Hloop.
        destruct (sliceLoop_found low high rest (pref ++ [b])
                    (Z.of_nat (length pref))) as (e' & Hloop' & Hle & Hsub).
        -- done.
        -- eapply Forall_impl; [exact Hall|]. simpl. intros; lia.
        -- rewrite length_app. simpl. lia.
        -- next_index pref Hloop'.
           rewrite Hloop' in Hloop. injection Hloop as <- <-.
           destruct (decide (0 ≤ _ ∧ _)); [|lia].
           rewrite <- app_assoc in Hsub. simpl in Hsub. rewrite Hsub.
           rewrite Nat2Z.id, drop_app_length.
           unfold booksInRange. by rewrite filter_cons_True by lia.
      * intros Hloop. unfold booksInRange.
        rewrite filter_cons_False by lia.
        specialize (IH (pref ++ [b]) start s e Hs' Hst).
        next_index pref IH.
        rewrite <- app_assoc in IH. simpl in IH. by apply IH.
Qed.

(** No book in the interval, no book in the filter. *)
Lemma booksInRange_none books low high :
  (∀ b, b ∈ books → ¬ (low ≤ ID b ≤ high)) → booksInRange books low high = [].
Proof.
  unfold booksInRange. induction books as [|b books IH]; intros Hnone; [done|].
  rewrite filter_cons_False by (apply Hnone; left).
  apply IH. intros c Hc. apply Hnone. by right.
Qed.

(** On a sorted catalog the scan and the interval filter agree. *)
Lemma sliceRange_sorted books lowID highID :
  ascendingIDs books →
  sliceRange books lowID highID = booksInRange books lowID highID.
Proof.
  intros Hs%ascendingIDs_strong. unfold sliceRange.
  destruct (sliceLoop lowID highID books 0 (-1) (-1)) as [s e] eqn:Hloop.
  by apply (sliceLoop_unfound lowID highID books [] (-1) s e).
Qed.

(** C2.  On a catalog whose IDs are sorted ascending, [sliceRange] returns
    exactly the books whose ID lies in [lowID, highID], in catalog order:
    the scan that stops at the first ID above [highID] equals the interval
    filter over the whole catalog.  So the result is empty, and no error,
    when no book's ID is in the interval, as it is when lowID > highID. *)
Theorem sliceRange_filter books lowID highID :
  ascendingIDs books →
  sliceRange books lowID highID = booksInRange books lowID highID
  ∧ ((∀ b, b ∈ books → ¬ (lowID ≤ ID b ≤ highID)) →
     sliceRange books lowID highID = [])
  ∧ (highID < lowID → sliceRange books lowID highID = []).
Proof.
  intros Hs. rewrite (sliceRange_sorted books lowID highID Hs).
  split; [done|]. split.
  - apply booksInRange_none.
  - intros Hlt. apply booksInRange_none. intros b _. lia.
Qed.

Lemma sliceRange_filter_witness :
  sliceRange Sample.catalog 10 50 = booksInRange Sample.catalog 10 50
  ∧ ((∀ b, b ∈ Sample.catalog → ¬ (10 ≤ ID b ≤ 50)) →
     sliceRange Sample.catalog 10 50 = [])
  ∧ (50 < 10 → sliceRange Sample.catalog 10 50 = []).
Proof.
  apply (sliceRange_filter Sample.catalog 10 50).
  repeat constructor; simpl; lia.
Defined.

(** The result of [sliceRange] is a run of consecutive books of the
    catalog, sorted or not. *)
Lemma sliceRange_contiguous books low high :
  ∃ pre post, books = pre ++ sliceRange books low high ++ post.
Proof.
  unfold sliceRange.
  destruct (sliceLoop low high books 0 (-1) (-1)) as [s e].
  destruct (decide (0 ≤ s ∧ s ≤ e)) as [Hse|_].
  - exists (take (Z.to_nat s) books), (drop (Z.to_nat (e + 1)) books).
    unfold subslice.
    rewrite <- (take_drop (Z.to_nat (e + 1)) books) at 1.
    rewrite <- (take_drop (Z.to_nat s) (take (Z.to_nat (e + 1)) books)) at 1.
    rewrite take_take, <- app_assoc. do 2 f_equal. lia.
  - exists books, []. by rewrite app_nil_r.
Qed.

(** ** Category labels *)

(** With unique sorted IDs a range of a single ID holds one book at most. *)
Lemma booksInRange_single books id :
  StronglySorted (λ a b, ID a < ID b) books →
  (length (booksInRange books id id) ≤ 1)%nat.
Proof.
  unfold booksInRange. induction 1 as [|b books Hs IH Hall]; [simpl; lia|].
  destruct (decide (ID b = id)) as [Hb|Hb].
  - rewrite filter_cons_True by lia.
    change (filter _ books) with (booksInRange books id id).
    rewrite booksInRange_none; [simpl; lia|].
    intros c Hc. apply (proj1 (Forall_forall _ _) Hall) in Hc. lia.
  - by rewrite filter_cons_False by lia.
Qed.

Lemma strictlyAscendingIDs_ascending books :
  strictlyAscendingIDs books → ascendingIDs books.
Proof.
  induction 1 as [|b books Hs IH Hhd]; constructor; [done|].
  destruct Hhd; constructor. lia.
Qed.

(** [init] stores under the key of a category the label of its range; the
    keys of [categories] are distinct, so no entry is overwritten. *)
Lemma buildMaps_lookup books cats c :
  NoDup (Key <$> cats) → c ∈ cats →
  catMap (buildMaps books cats) !! Key c = Some (LowID c, HighID c)
  ∧ catLabel (buildMaps books cats) !! Key c
    = Some (rangeLabel books (LowID c) (HighID c)).
Proof.
  unfold buildMaps. induction cats as [|c' cats IH] using rev_ind; [by inversion 2|].
  rewrite fmap_app, fold_left_app. simpl.
  intros [Hnd [Hfresh _]]%NoDup_app [Hin|Hin%list_elem_of_singleton]%elem_of_app.
  - assert (Key c' ≠ Key c) as Hne.
    { intros Heq. apply (Hfresh (Key c)).
      - apply list_elem_of_fmap. by exists c.
      - rewrite Heq. left. }
    rewrite !lookup_insert_ne by done. by apply IH.
  - subst c'. by rewrite !lookup_insert_eq.
Qed.

Lemma categories_labelled books c :
  c ∈ categories →
  catLabel (buildMaps books categories) !! Key c
  = Some (rangeLabel books (LowID c) (HighID c)).
Proof.
  intros Hc. apply buildMaps_lookup; [|done].
  apply (bool_decide_unpack (NoDup (Key <$> categories))). by vm_compute.
Qed.

(** The label of a range that resolves to some books: the test is on the
    bounds of the range, not on the number of books. *)
Lemma rangeLabel_nonempty books lowID highID first lst :
  head (sliceRange books lowID highID) = Some first →
  last (sliceRange books lowID highID) = Some lst →
  rangeLabel books lowID highID
  = if decide (lowID = highID) then Name first
    else Name first +:+ " — " +:+ Name lst.
Proof.
  unfold rangeLabel.
  destruct (sliceRange books lowID highID) as [|b rest]; [done|].
  intros [= <-] Hlast. simpl length.
  destruct (decide (S (length rest) = 0%nat)); [lia|].
  destruct (decide (lowID = highID)); [done|].
  unfold at_index. rewrite last_lookup in Hlast. simpl in Hlast.
  replace (S (length rest) - 1)%nat with (length rest) by lia.
  by rewrite Hlast.
Qed.

(** C4 as the program has it.  The label is empty when the resolved slice
    is empty.  For a slice of a single book it is the book's name when
    lowID = highID, and the name twice around the em dash otherwise.  For a
    slice of more than one book, in a catalog of unique sorted IDs, it is
    the first name, " — " and the last name.  In every catalog the label
    of a slice that is not empty is the first name when lowID = highID and
    the first name, " — " and the last name otherwise. *)
Theorem rangeLabel_cases books lowID highID :
  (sliceRange books lowID highID = [] → rangeLabel books lowID highID = "")
  ∧ (∀ b, sliceRange books lowID highID = [b] →
       rangeLabel books lowID highID
       = if decide (lowID = highID) then Name b
         else Name b +:+ " — " +:+ Name b)
  ∧ (strictlyAscendingIDs books →
     (1 < length (sliceRange books lowID highID))%nat →
     ∃ first lst,
       head (sliceRange books lowID highID) = Some first
       ∧ last (sliceRange books lowID highID) = Some lst
       ∧ rangeLabel books lowID highID = Name first +:+ " — " +:+ Name lst)
  ∧ (∀ first lst,
       head (sliceRange books lowID highID) = Some first →
       last (sliceRange books lowID highID) = Some lst →
       rangeLabel books lowID highID
       = if decide (lowID = highID) then Name first
         else Name first +:+ " — " +:+ Name lst).
Proof.
  split; [|split; [|split]].
  - unfold rangeLabel. by intros ->.
  - intros b Hb. apply rangeLabel_nonempty; by rewrite Hb.
  - intros Hstrict Hlen.
    destruct (sliceRange books lowID highID) as [|first rest] eqn:Hslice;
      [simpl in Hlen; lia|].
    destruct (last (first :: rest)) as [lst|] eqn:Hlast;
      [|by apply last_None in Hlast].
    exists first, lst. split; [done|]. split; [done|].
    rewrite (rangeLabel_nonempty books lowID highID first lst)
      by (by rewrite Hslice).
    destruct (decide (lowID = highID)) as [->|_]; [|done].
    exfalso. rewrite <- Hslice in Hlen.
    rewrite sliceRange_sorted in Hlen
      by (by apply strictlyAscendingIDs_ascending).
    assert (StronglySorted (λ a b, ID a < ID b) books) as Hstrong.
    { apply Sorted_StronglySorted; [|done]. intros a b c ??. lia. }
    pose proof (booksInRange_single books highID Hstrong). lia.
  - apply rangeLabel_nonempty.
Qed.

Lemma rangeLabel_cases_witness :
  rangeLabel Sample.catalog 999 999 = ""
  ∧ rangeLabel Sample.catalog 510 510 = "Acts"
  ∧ rangeLabel Sample.catalog 470 730 = "Acts — Acts"
  ∧ ∃ first lst,
      head (sliceRange Sample.catalog 10 50) = Some first
      ∧ last (sliceRange Sample.catalog 10 50) = Some lst
      ∧ rangeLabel Sample.catalog 10 50 = Name first +:+ " — " +:+ Name lst.
Proof.
  split; [|split; [|split]].
  - apply (rangeLabel_cases Sample.catalog 999 999). reflexivity.
  - exact (proj1 (proj2 (rangeLabel_cases Sample.catalog 510 510))
             Sample.acts eq_refl).
  - exact (proj1 (proj2 (rangeLabel_cases Sample.catalog 470 730))
             Sample.acts eq_refl).
  - apply (rangeLabel_cases Sample.catalog 10 50).
    + repeat constructor; simpl; lia.
    + vm_compute. lia.
Defined.

(** C4 as stated fails: the range [10, 50] resolves to the single book
    Genesis in a catalog that holds only Genesis, and the label is not the
    book's name. *)
Lemma rangeLabel_single_book_counterexample :
  sliceRange [Sample.genesis] 10 50 = [Sample.genesis]
  ∧ rangeLabel [Sample.genesis] 10 50 = "Genesis — Genesis"
  ∧ rangeLabel [Sample.genesis] 10 50 ≠ Name Sample.genesis.
Proof. vm_compute. repeat split; discriminate. Qed.

(** ** The catalog load *)

Lemma Split_no_separator sep s :
  hasByte sep s = false → Strings.Split sep s = [s].
Proof.
  induction s as [|c r IH]; simpl; [done|].
  destruct (decide (c = sep)); [done|]. intros Hr. by rewrite IH.
Qed.

Lemma Split_field sep f r :
  hasByte sep f = false →
  Strings.Split sep (f +:+ String sep r) = f :: Strings.Split sep r.
Proof.
  induction f as [|c f IH]; simpl.
  - intros _. by destruct (decide (sep = sep)).
  - destruct (decide (c = sep)); [done|]. intros Hf. by rewrite IH.
Qed.

(** What a field list of [Split] says about the string: the first field
    holds no separator, and either it is the whole string or a separator
    and the string of the other fields follow it. *)
Lemma Split_inv sep s f fs :
  Strings.Split sep s = f :: fs →
  hasByte sep f = false
  ∧ ((fs = [] ∧ s = f)
     ∨ (∃ r, s = f +:+ String sep r ∧ Strings.Split sep r = fs)).
Proof.
  revert f fs. induction s as [|c r IH]; intros f fs; simpl.
  - intros [= <- <-]. split; [done|]. by left.
  - destruct (decide (c = sep)) as [->|Hc].
    + intros [= <- <-]. split; [done|]. right. by exists r.
    + destruct (Strings.Split sep r) as [|g gs] eqn:Hr.
      * intros [= <- <-]. destruct r; simpl in Hr; [done|].
        destruct (decide (a = sep)); [done|].
        by destruct (Strings.Split sep r).
      * intros [= <- <-]. destruct (IH g gs eq_refl) as [Hg Hcases].
        split; [simpl; by destruct (decide (c = sep))|].
        destruct Hcases as [[-> ->]|(r' & -> & Hr')]; [by left|].
        right. by exists r'.
Qed.

(** The loop body accepts exactly the well-formed records. *)
Lemma parseLine_wellFormed line b :
  parseLine line = Some b ↔ wellFormed line b.
Proof.
  unfold parseLine, wellFormed. split.
  - destruct (Strings.Split "|" line) as [|p0 [|p1 [|p2 [|]]]] eqn:Hsplit;
      try done.
    destruct (Strconv.Atoi p0) as [id|] eqn:Hid; [|done].
    destruct (Strconv.Atoi p2) as [cnt|] eqn:Hcnt; [|done].
    intros [= <-]. simpl.
    apply Split_inv in Hsplit as [H0 [[? _]|(r1 & -> & Hsplit)]]; [done|].
    apply Split_inv in Hsplit as [H1 [[? _]|(r2 & -> & Hsplit)]]; [done|].
    apply Split_inv in Hsplit as [H2 [[_ ->]|(r3 & _ & Hsplit)]].
    + by exists p0, p2.
    + destruct r3; simpl in Hsplit; [done|].
      destruct (decide (a = "|"%char)); [done|].
      by destruct (Strings.Split "|" r3).
  - intros (f0 & f2 & -> & H0 & H1 & H2 & Hid & Hcnt & Hfile).
    rewrite Split_field, Split_field, Split_no_separator by done.
    rewrite Hid, Hcnt. destruct b as [id name cnt file]. simpl in *.
    by rewrite Hfile.
Qed.

(** The loop appends the books of the lines it accepts, in input order. *)
Lemma scanBooks_omap tokens books :
  scanBooks tokens books = books ++ omap parseLine tokens.
Proof.
  revert books. induction tokens as [|line rest IH]; intros books; simpl.
  - by rewrite app_nil_r.
  - destruct (parseLine line) as [b|]; rewrite IH; [|done].
    by rewrite <- app_assoc.
Qed.

(** C9 as the program has it.  The load is fatal exactly when the scan
    of the index content stops with an error, whatever the lines are; when
    the content is read to its end the load succeeds.  The catalog then
    holds the books of the lines that parse, in input order; a line parses
    exactly when it is a well-formed record, so every other line (wrong
    field count, or an id or count that is no integer) is passed over and
    never ends the load. *)
Theorem loadBooks_skips_malformed sc :
  (loadBooks sc = Fatal ↔ Bufio.failure sc = true)
  ∧ (Bufio.failure sc = false →
     loadBooks sc = Loaded (omap parseLine (Bufio.pending sc)))
  ∧ (∀ line b, parseLine line = Some b ↔ wellFormed line b)
  ∧ (∀ line, parseLine line = None ↔ ¬ ∃ b, wellFormed line b)
  ∧ (∀ line b, line ∈ Bufio.pending sc → wellFormed line b →
       b ∈ omap parseLine (Bufio.pending sc)).
Proof.
  split; [|split; [|split; [|split]]].
  - unfold loadBooks, Bufio.Err, Bufio.exhausted. simpl.
    by destruct (Bufio.failure sc).
  - intros Hok. unfold loadBooks, Bufio.Err, Bufio.exhausted. simpl.
    rewrite Hok. by rewrite scanBooks_omap.
  - apply parseLine_wellFormed.
  - intros line. split.
    + intros Hnone [b Hb%parseLine_wellFormed]. congruence.
    + intros Hno. destruct (parseLine line) as [b|] eqn:Hb; [|done].
      exfalso. apply Hno. exists b. by apply parseLine_wellFormed.
  - intros line b Hin Hwf%parseLine_wellFormed.
    apply list_elem_of_omap. by exists line.
Qed.

Lemma loadBooks_skips_malformed_witness :
  loadBooks (Bufio.mkScanner
               ["10|Genesis|1533"; "# books"; "x|Nobody|3"; "15|Void|";
                "20|Exodus|1213"; "30|Too|many|4"] false)
  = Loaded [Sample.genesis; Sample.exodus].
Proof.
  exact (proj1 (proj2 (loadBooks_skips_malformed
                         (Bufio.mkScanner
                            ["10|Genesis|1533"; "# books"; "x|Nobody|3";
                             "15|Void|"; "20|Exodus|1213"; "30|Too|many|4"]
                            false))) eq_refl).
Defined.

(** C9 as stated fails: an index that is read from the embedded files
    can still make the scan stop with an error, which [bufio.Scanner]
    reports when a line is longer than its buffer may grow (64 KiB), after
    it has delivered the lines before; the check after the loop then ends
    the program, and the well-formed records already read are lost. *)
Lemma loadBooks_scan_error_counterexample :
  parseLine "10|Genesis|1533" = Some Sample.genesis
  ∧ parseLine "20|Exodus|1213" = Some Sample.exodus
  ∧ loadBooks (Bufio.mkScanner ["10|Genesis|1533"; "20|Exodus|1213"] true)
    = Fatal.
Proof. repeat split; reflexivity. Qed.

Lemma ascendingIDs_of_ids books :
  Sorted Z.le (ID <$> books) → ascendingIDs books.
Proof.
  unfold ascendingIDs. induction books as [|b books IH]; simpl; [constructor|].
  intros Hs. apply Sorted_inv in Hs as [Hs Hhd]. constructor; [by apply IH|].
  destruct books; simpl in *; constructor. by apply HdRel_inv in Hhd.
Qed.

Lemma omap_parseLine_ids tokens :
  ID <$> omap parseLine tokens = recordIDs tokens.
Proof.
  unfold recordIDs. induction tokens as [|line rest IH]; simpl; [done|].
  destruct (parseLine line) as [b|]; simpl; [f_equal|]; exact IH.
Qed.

(** C7 as the program has it.  The load keeps the books in the order of
    the well-formed records of the index and does not sort them.  So the
    catalog is sorted by ID when those records come in ascending ID order,
    and then every range resolves to the books of the interval.  Sorted or
    not, what a range resolves to is a contiguous slice of the catalog. *)
Theorem loadBooks_keeps_input_order sc books :
  loadBooks sc = Loaded books →
  ID <$> books = recordIDs (Bufio.pending sc)
  ∧ (Sorted Z.le (recordIDs (Bufio.pending sc)) →
     ascendingIDs books
     ∧ ∀ lowID highID,
         sliceRange books lowID highID = booksInRange books lowID highID)
  ∧ (∀ lowID highID,
       ∃ pre post, books = pre ++ sliceRange books lowID highID ++ post).
Proof.
  unfold loadBooks. destruct (Bufio.Err _); [done|].
  rewrite scanBooks_omap. simpl. intros [= <-].
  split; [apply omap_parseLine_ids|]. split.
  - rewrite <- omap_parseLine_ids. intros Hs%ascendingIDs_of_ids.
    split; [done|]. intros lowID highID. by apply sliceRange_sorted.
  - intros lowID highID. apply sliceRange_contiguous.
Qed.

Lemma loadBooks_keeps_input_order_witness :
  ascendingIDs [Sample.genesis; Sample.exodus]
  ∧ ∀ lowID highID,
      sliceRange [Sample.genesis; Sample.exodus] lowID highID
      = booksInRange [Sample.genesis; Sample.exodus] lowID highID.
Proof.
  apply (loadBooks_keeps_input_order
           (Bufio.mkScanner ["10|Genesis|1533"; "oops"; "20|Exodus|1213"] false)
           [Sample.genesis; Sample.exodus]).
  - reflexivity.
  - vm_compute. repeat constructor; discriminate.
Defined.

(** C7 as stated fails: an index whose records are out of order loads
    into a catalog that is not sorted, and the range [10, 10] then misses
    the book with ID 10. *)
Lemma loadBooks_unsorted_counterexample :
  loadBooks (Bufio.mkScanner ["20|Exodus|1213"; "10|Genesis|1533"] false)
  = Loaded [Sample.exodus; Sample.genesis]
  ∧ ¬ ascendingIDs [Sample.exodus; Sample.genesis]
  ∧ sliceRange [Sample.exodus; Sample.genesis] 10 10 = []
  ∧ booksInRange [Sample.exodus; Sample.genesis] 10 10 = [Sample.genesis].
Proof.
  split; [reflexivity|]. split; [|split; reflexivity].
  intros Hs. apply Sorted_inv in Hs as [_ Hhd].
  apply HdRel_inv in Hhd. simpl in Hhd. lia.
Qed.

(** ** The verse extractor *)

(** The skip loop drops the tokens it passes, and stops when none is left. *)
Lemma skipLoop_pending n sc :
  Bufio.pending (skipLoop n sc) = drop n (Bufio.pending sc)
  ∧ Bufio.failure (skipLoop n sc) = Bufio.failure sc.
Proof.
  revert sc. induction n as [|n IH]; intros sc; simpl; [done|].
  unfold Bufio.Scan. destruct sc as [[|t ts] fl]; simpl; [done|].
  apply IH.
Qed.

(** C5.  For an offset of at least 1, the extraction passes over
    [offset - 1] records, or over all of them if the stream holds fewer,
    and prints the ones that follow.  When the stream holds no more than
    [offset - 1] records it prints none.  The offset never makes the
    extraction fail: the error it reports is the one of the stream. *)
Theorem extract_skips_offset sc offset :
  1 ≤ offset →
  Bufio.pending (skipTo offset sc)
  = drop (Z.to_nat (offset - 1)) (Bufio.pending sc)
  ∧ (length (Bufio.pending sc) - length (Bufio.pending (skipTo offset sc))
     = Z.to_nat (offset - 1) `min` length (Bufio.pending sc))%nat
  ∧ extract sc offset
    = (verses (drop (Z.to_nat (offset - 1)) (Bufio.pending sc)),
       Bufio.failure sc)
  ∧ (Z.of_nat (length (Bufio.pending sc)) ≤ offset - 1 →
     extract sc offset = ([], Bufio.failure sc)).
Proof.
  intros Hoff. unfold extract, skipTo, Bufio.Err, Bufio.exhausted. simpl.
  destruct (skipLoop_pending (Z.to_nat (offset - 1)) sc) as [-> ->].
  split; [done|]. split; [rewrite length_drop; lia|]. split; [done|].
  intros Hshort. by rewrite drop_ge by lia.
Qed.

Lemma extract_skips_offset_witness :
  extract Sample.stream 2
  = ([Numbered "1:2" "And the earth"; Plain "Amen"], false)
  ∧ extract Sample.stream 7 = ([], false).
Proof.
  split.
  - exact (proj1 (proj2 (proj2 (extract_skips_offset Sample.stream 2
                                  ltac:(lia))))).
  - exact (proj2 (proj2 (proj2 (extract_skips_offset Sample.stream 7
                                  ltac:(lia)))) ltac:(simpl; lia)).
Defined.

Lemma cut_first sep tok rest :
  hasByte sep tok = false →
  Strings.cut sep (tok +:+ String sep rest) = Some (tok, rest).
Proof.
  induction tok as [|c tok IH]; simpl.
  - intros _. by destruct (decide (sep = sep)).
  - destruct (decide (c = sep)); [done|]. intros Ht. by rewrite IH.
Qed.

Lemma cut_none sep s : hasByte sep s = false → Strings.cut sep s = None.
Proof.
  induction s as [|c s IH]; simpl; [done|].
  destruct (decide (c = sep)); [done|]. intros Hs. by rewrite IH.
Qed.

Lemma hasByte_first sep s :
  hasByte sep s = true →
  ∃ tok rest, s = tok +:+ String sep rest ∧ hasByte sep tok = false.
Proof.
  induction s as [|c s IH]; simpl; [done|].
  destruct (decide (c = sep)) as [->|Hc].
  - intros _. by exists EmptyString, s.
  - intros (tok & rest & -> & Ht)%IH. exists (String c tok), rest.
    split; [done|]. simpl. by destruct (decide (c = sep)).
Qed.

Lemma verses_fmap tokens : verses tokens = verseOf <$> tokens.
Proof. induction tokens as [|line rest IH]; simpl; by rewrite ?IH. Qed.

(** C8 as the program has it.  Every line the extraction prints is cut at
    its first space character (U+0020): a line with a space gives the
    record of what precedes the first space and what follows it, a line
    without a space gives the record of the empty token and the whole
    line.  No other white space cuts a line. *)
Theorem verse_split_first_space :
  (∀ sc offset,
     (extract sc offset).1
     = verseOf <$> drop (Z.to_nat (offset - 1)) (Bufio.pending sc))
  ∧ (∀ tok rest, hasByte " " tok = false →
       record (verseOf (tok +:+ String " " rest)) = (tok, rest))
  ∧ (∀ line, hasByte " " line = false → record (verseOf line) = ("", line))
  ∧ (∀ line, hasByte " " line = true →
       ∃ tok rest, line = tok +:+ String " " rest ∧ hasByte " " tok = false).
Proof.
  split; [|split; [|split]].
  - intros sc offset. unfold extract, skipTo. simpl.
    destruct (skipLoop_pending (Z.to_nat (offset - 1)) sc) as [-> _].
    apply verses_fmap.
  - intros tok rest Ht. unfold verseOf, Strings.SplitN2.
    by rewrite cut_first.
  - intros line Hl. unfold verseOf, Strings.SplitN2. by rewrite cut_none.
  - intros line. apply hasByte_first.
Qed.

Lemma verse_split_first_space_witness :
  record (verseOf "1:1 In the beginning") = ("1:1", "In the beginning")
  ∧ record (verseOf "Amen") = ("", "Amen").
Proof.
  split.
  - exact (proj1 (proj2 verse_split_first_space) "1:1" "In the beginning"
             eq_refl).
  - exact (proj1 (proj2 (proj2 verse_split_first_space)) "Amen" eq_refl).
Defined.

(** C8 as stated fails: a tab is a whitespace boundary, and a line whose
    first white space is a tab is not cut there but at the first space
    that follows (and printed whole when none follows), where the split on
    the first whitespace boundary sets the token before the tab apart. *)
Lemma verse_tab_counterexample :
  specIsWhitespace "009" = true
  ∧ record (verseOf ("1:1" +:+ String "009" "In the beginning"))
    = ("1:1" +:+ String "009" "In", "the beginning")
  ∧ record (verseOf ("1:1" +:+ String "009" "Amen"))
    = ("", "1:1" +:+ String "009" "Amen")
  ∧ specSplitFirstWhitespace ("1:1" +:+ String "009" "In the beginning")
    = ("1:1", "In the beginning")
  ∧ record (verseOf ("1:1" +:+ String "009" "In the beginning"))
    ≠ specSplitFirstWhitespace ("1:1" +:+ String "009" "In the beginning").
Proof.
  split; [by vm_compute|]. split; [by vm_compute|]. split; [by vm_compute|].
  split; [by vm_compute|]. vm_compute. discriminate.
Qed.

(** ** The program on concrete inputs *)

Example Split_fields :
  Strings.Split "|" "10|Genesis|1533" = ["10"; "Genesis"; "1533"]
  ∧ Strings.Split "|" "" = [""]
  ∧ Strings.Split "|" "15|Void|" = ["15"; "Void"; ""]
  ∧ Strings.SplitN2 " " "1:1 In the beginning" = ["1:1"; "In the beginning"]
  ∧ Strings.SplitN2 " " " x" = [""; "x"]
  ∧ Strings.SplitN2 " " "Amen" = ["Amen"].
Proof. by vm_compute. Qed.

Example Atoi_values :
  Strconv.Atoi "1533" = Some 1533
  ∧ Strconv.Atoi "-7" = Some (-7)
  ∧ Strconv.Atoi "+7" = Some 7
  ∧ Strconv.Atoi "007" = Some 7
  ∧ Strconv.Atoi "" = None
  ∧ Strconv.Atoi "-" = None
  ∧ Strconv.Atoi " 7" = None
  ∧ Strconv.Atoi "7a" = None
  ∧ Strconv.Atoi "9223372036854775807" = Some GoInt.max_int
  ∧ Strconv.Atoi "9223372036854775808" = None
  ∧ Strconv.Atoi "-9223372036854775808" = Some GoInt.min_int.
Proof. by vm_compute. Qed.

(** The end-to-end scenario of the specification: the catalog of Genesis
    and Exodus, the category "pentateuch", and a range without books. *)
Example scenario_labels :
  catLabel (buildMaps [Sample.genesis; Sample.exodus] categories)
    !! "pentateuch" = Some "Genesis — Exodus"
  ∧ rangeLabel [Sample.genesis; Sample.exodus] 999 999 = "".
Proof.
  split; [|by vm_compute].
  rewrite (categories_labelled _ (mkCategory "pentateuch" 10 50)).
  - by vm_compute.
  - apply list_elem_of_lookup. by exists 2%nat.
Qed.

Example scenario_select :
  select (sliceRange [Sample.genesis; Sample.exodus] 10 50) 0
  = Selected Sample.genesis 1
  ∧ select (sliceRange [Sample.genesis; Sample.exodus] 10 50) 1533
    = Selected Sample.exodus 1
  ∧ select (sliceRange [Sample.genesis; Sample.exodus] 10 50) 2745
    = Selected Sample.exodus 1213
  ∧ select (sliceRange [Sample.genesis; Sample.exodus] 999 999) 0 = NoVerses.
Proof. by vm_compute. Qed.

(** The pool of line counts 3 and 1: the four choices reach the four
    lines, one each. *)
Example select_three_one :
  select [Sample.three; Sample.one] <$> [0; 1; 2; 3]
  = [Selected Sample.three 1; Selected Sample.three 2;
     Selected Sample.three 3; Selected Sample.one 1].
Proof. by vm_compute. Qed.

(** * Further properties *)

(** ** The range resolver on any catalog *)

Lemma takeWhile_Forall {A} (P : A → Prop) `{∀ x, Decision (P x)} l :
  Forall P (takeWhile P l).
Proof.
  induction l as [|x l IH]; simpl; [constructor|].
  destruct (decide (P x)); by constructor.
Qed.

Lemma takeWhile_all {A} (P : A → Prop) `{∀ x, Decision (P x)} l :
  Forall P l → takeWhile P l = l.
Proof.
  induction 1 as [|x l Hx Hl IH]; simpl; [done|].
  destruct (decide (P x)); [by rewrite IH|done].
Qed.

Lemma dropWhile_suffix {A} (P : A → Prop) `{∀ x, Decision (P x)} l :
  ∃ pre, l = pre ++ dropWhile P l ∧ Forall P pre.
Proof.
  induction l as [|x l (pre & Hl & Hpre)]; simpl; [by exists []|].
  destruct (decide (P x)).
  - exists (x :: pre). simpl. split; [by rewrite <- Hl|by constructor].
  - by exists [].
Qed.

Lemma dropWhile_head {A} (P : A → Prop) `{∀ x, Decision (P x)} l x :
  head (dropWhile P l) = Some x → ¬ P x.
Proof.
  induction l as [|y l IH]; simpl; [done|].
  destruct (decide (P y)); [done|]. by intros [= <-].
Qed.

Lemma dropWhile_stops {A} (P : A → Prop) `{∀ x, Decision (P x)} x l :
  ¬ P x → dropWhile P (x :: l) = x :: l.
Proof. intros Hx. simpl. by destruct (decide (P x)). Qed.

(** The loop once [start] is set, on any catalog: the slice runs from
    [start] up to the first book above the upper bound. *)
Lemma sliceLoop_found_any low high bs :
  ∀ pref start,
  0 ≤ start < Z.of_nat (length pref) →
  ∃ e, sliceLoop low high bs (Z.of_nat (length pref)) start
         (Z.of_nat (length pref) - 1) = (start, e)
       ∧ start ≤ e
       ∧ subslice (pref ++ bs) start (e + 1)
         = drop (Z.to_nat start) pref ++ takeWhile (λ b, ID b ≤ high) bs.
Proof.
  induction bs as [|b rest IH]; intros pref start Hst; simpl.
  - exists (Z.of_nat (length pref) - 1). split; [done|]. split; [lia|].
    replace (Z.of_nat (length pref) - 1 + 1) with (Z.of_nat (length pref)) by lia.
    rewrite subslice_prefix by lia. by rewrite app_nil_r.
  - destruct (decide (start < 0 ∧ low ≤ ID b)) as [?|_]; [lia|].
    destruct (decide (high < ID b)) as [Habove|Hbelow].
    + destruct (decide (ID b ≤ high)); [lia|].
      exists (Z.of_nat (length pref) - 1). split; [done|]. split; [lia|].
      replace (Z.of_nat (length pref) - 1 + 1) with (Z.of_nat (length pref)) by lia.
      rewrite subslice_prefix by lia. by rewrite app_nil_r.
    + destruct (decide (ID b ≤ high)); [|lia].
      destruct (IH (pref ++ [b]) start) as (e & Hloop & Hle & Hsub).
      { rewrite length_app. simpl. lia. }
      next_index pref Hloop.
      exists e. split; [done|]. split; [done|].
      rewrite <- app_assoc in Hsub. simpl in Hsub. rewrite Hsub.
      rewrite drop_app_le by (rewrite <- Nat2Z.id; lia).
      by rewrite <- app_assoc.
Qed.

(** The loop while [start] is still negative, on any catalog. *)
Lemma sliceLoop_unfound_any low high bs :
  ∀ pref start s e,
  start < 0 →
  sliceLoop low high bs (Z.of_nat (length pref)) start
    (Z.of_nat (length pref) - 1) = (s, e) →
  (if decide (0 ≤ s ∧ s ≤ e) then subslice (pref ++ bs) s (e + 1) else [])
  = dropWhile (λ b, ID b < low) (takeWhile (λ b, ID b ≤ high) bs).
Proof.
  induction bs as [|b rest IH]; intros pref start s e Hst; simpl.
  - intros [= <- <-]. by destruct (decide (0 ≤ start ∧ _)); [lia|].
  - destruct (decide (high < ID b)) as [Habove|Hbelow].
    + destruct (decide (ID b ≤ high)); [lia|].
      intros [= <- <-].
      destruct (decide (start < 0 ∧ low ≤ ID b));
        by destruct (decide (0 ≤ _ ∧ _)); [lia|].
    + destruct (decide (ID b ≤ high)); [|lia].
      destruct (decide (start < 0 ∧ low ≤ ID b)) as [[_ Hb]|Hnb].
      * intros Hloop.
        destruct (sliceLoop_found_any low high rest (pref ++ [b])
                    (Z.of_nat (length pref))) as (e' & Hloop' & Hle & Hsub).
        { rewrite length_app. simpl. lia. }
        next_index pref Hloop'.
        rewrite Hloop' in Hloop. injection Hloop as <- <-.
        destruct (decide (0 ≤ _ ∧ _)); [|lia].
        rewrite <- app_assoc in Hsub. simpl in Hsub. rewrite Hsub.
        rewrite Nat2Z.id, drop_app_length.
        by rewrite dropWhile_stops by lia.
      * intros Hloop. simpl. destruct (decide (ID b < low)); [|lia].
        specialize (IH (pref ++ [b]) start s e Hst).
        next_index pref IH.
        rewrite <- app_assoc in IH. simpl in IH. by apply IH.
Qed.

(** [sliceRange] without the loop. *)
Lemma sliceRange_while books lowID highID :
  sliceRange books lowID highID
  = dropWhile (λ b, ID b < lowID) (takeWhile (λ b, ID b ≤ highID) books).
Proof.
  unfold sliceRange.
  destruct (sliceLoop lowID highID books 0 (-1) (-1)) as [s e] eqn:Hloop.
  by apply (sliceLoop_unfound_any lowID highID books [] (-1) s e).
Qed.

(** X1.  On every catalog, sorted or not, [sliceRange] returns the books
    up to the first one whose ID is above [highID], without the leading
    ones whose ID is below [lowID].  So no book it returns has an ID above
    [highID], and the first book it returns has an ID of at least
    [lowID]; a later one may be below [lowID] when the catalog is not
    sorted. *)
Theorem sliceRange_any_catalog books lowID highID :
  sliceRange books lowID highID
  = dropWhile (λ b, ID b < lowID) (takeWhile (λ b, ID b ≤ highID) books)
  ∧ Forall (λ b, ID b ≤ highID) (sliceRange books lowID highID)
  ∧ (∀ b, head (sliceRange books lowID highID) = Some b → lowID ≤ ID b).
Proof.
  rewrite sliceRange_while. split; [done|]. split.
  - destruct (dropWhile_suffix (λ b, ID b < lowID)
                (takeWhile (λ b, ID b ≤ highID) books)) as (pre & Heq & _).
    pose proof (takeWhile_Forall (λ b, ID b ≤ highID) books) as Hall.
    rewrite Heq in Hall. by apply Forall_app in Hall as [_ ?].
  - intros b Hb%dropWhile_head. lia.
Qed.

(** A catalog out of order: the range [10, 30] takes the book 5 that
    stands between 10 and 30. *)
Example sliceRange_unsorted :
  sliceRange [mkBookInfo 10 "a" 1 ""; mkBookInfo 5 "b" 1 "";
              mkBookInfo 30 "c" 1 ""; mkBookInfo 40 "d" 1 "";
              mkBookInfo 20 "e" 1 ""] 10 30
  = [mkBookInfo 10 "a" 1 ""; mkBookInfo 5 "b" 1 ""; mkBookInfo 30 "c" 1 ""].
Proof. reflexivity. Qed.

Lemma sliceRange_any_catalog_witness : 10 ≤ ID Sample.genesis.
Proof.
  exact (proj2 (proj2 (sliceRange_any_catalog Sample.catalog 10 50))
           Sample.genesis eq_refl).
Defined.

Lemma filter_ascending books (P : BookInfo → Prop) `{∀ b, Decision (P b)} :
  ascendingIDs books → ascendingIDs (filter P books).
Proof.
  intros Hs%ascendingIDs_strong. apply StronglySorted_Sorted.
  induction Hs as [|b books Hs IH Hall]; [constructor|].
  destruct (decide (P b)).
  - rewrite filter_cons_True by done. constructor; [done|].
    apply Forall_forall. intros c [_ Hc]%list_elem_of_filter.
    by apply (proj1 (Forall_forall _ _) Hall).
  - by rewrite filter_cons_False by done.
Qed.

(** X2.  Resolving a range within a resolved range.  On every catalog,
    resolving the same range again changes nothing.  On a sorted catalog,
    resolving a second range within the result of a first gives the books
    of the intersection of the two intervals. *)
Theorem sliceRange_twice books lowID highID :
  sliceRange (sliceRange books lowID highID) lowID highID
  = sliceRange books lowID highID
  ∧ (ascendingIDs books → ∀ lowID' highID',
       sliceRange (sliceRange books lowID highID) lowID' highID'
       = sliceRange books (lowID `max` lowID') (highID `min` highID')).
Proof.
  split.
  - rewrite !sliceRange_while.
    set (p := takeWhile (λ b, ID b ≤ highID) books).
    assert (Forall (λ b, ID b ≤ highID) (dropWhile (λ b, ID b < lowID) p))
      as Hall.
    { destruct (dropWhile_suffix (λ b, ID b < lowID) p) as (pre & Heq & _).
      pose proof (takeWhile_Forall (λ b, ID b ≤ highID) books) as Hp.
      fold p in Hp. rewrite Heq in Hp. by apply Forall_app in Hp as [_ ?]. }
    rewrite takeWhile_all by done.
    destruct (dropWhile (λ b, ID b < lowID) p) as [|b r] eqn:Hd; [done|].
    apply dropWhile_stops.
    apply (dropWhile_head (λ b, ID b < lowID) p). by rewrite Hd.
  - intros Hs lowID' highID'.
    rewrite (sliceRange_sorted books lowID highID Hs).
    rewrite sliceRange_sorted by (by apply filter_ascending).
    rewrite sliceRange_sorted by done.
    unfold booksInRange. rewrite list_filter_filter.
    apply list_filter_iff. intros b. lia.
Qed.

Lemma sliceRange_twice_witness :
  sliceRange (sliceRange Sample.catalog 10 460) 20 730
  = sliceRange Sample.catalog (10 `max` 20) (460 `min` 730).
Proof.
  apply (sliceRange_twice Sample.catalog 10 460).
  repeat constructor; simpl; lia.
Defined.

(** ** The selector on pools put together *)

Lemma totalLines_in_range pool : GoInt.in_range (totalLines pool).
Proof. apply (total_from_in_range pool 0 zero_in_range). Qed.

(** Books without lines change neither the running total nor the walk. *)
Lemma total_from_skip_empty pool cum :
  GoInt.in_range cum →
  fold_left (λ total b, GoInt.add total (LineCount b))
    (filter (λ b, LineCount b ≠ 0) pool) cum
  = fold_left (λ total b, GoInt.add total (LineCount b)) pool cum.
Proof.
  revert cum. induction pool as [|b pool IH]; intros cum Hc; [done|].
  destruct (decide (LineCount b = 0)) as [Hz|Hnz].
  - rewrite filter_cons_False by (intros ?; done). simpl.
    rewrite Hz, add_zero_r by done. by apply IH.
  - rewrite filter_cons_True by done. simpl. apply IH, wrap_in_range.
Qed.

Lemma locate_skip_empty pool cum choice :
  GoInt.in_range cum → cum < choice →
  locate cum (filter (λ b, LineCount b ≠ 0) pool) choice
  = locate cum pool choice.
Proof.
  revert cum. induction pool as [|b pool IH]; intros cum Hc Hlt; [done|].
  destruct (decide (LineCount b = 0)) as [Hz|Hnz].
  - rewrite filter_cons_False by (intros ?; done). simpl.
    rewrite Hz, add_zero_r by done.
    destruct (decide (choice ≤ cum)); [lia|]. by apply IH.
  - rewrite filter_cons_True by done. simpl.
    destruct (decide (choice ≤ GoInt.add cum (LineCount b))); [done|].
    apply IH; [apply wrap_in_range|lia].
Qed.

(** X3.  Books without lines do not matter to the selection: on every
    pool and every draw (a non-negative [int] below the largest one, as
    all that [rng.Intn] returns are), [select] gives the same outcome as
    on the pool without its zero-line books. *)
Theorem select_skips_empty_books pool draw :
  0 ≤ draw < GoInt.max_int →
  select (filter (λ b, LineCount b ≠ 0) pool) draw = select pool draw.
Proof.
  intros Hd. unfold select, totalLines.
  rewrite total_from_skip_empty by apply zero_in_range.
  fold (totalLines pool).
  destruct (decide (totalLines pool = 0)); [done|].
  destruct (decide (totalLines pool ≤ 0)); [done|].
  assert (GoInt.add draw 1 = draw + 1) as ->.
  { apply wrap_small. unfold GoInt.in_range, GoInt.min_int. lia. }
  by rewrite locate_skip_empty by (apply zero_in_range || lia).
Qed.

Lemma select_skips_empty_books_witness :
  select (filter (λ b, LineCount b ≠ 0)
            [Sample.genesis; Sample.blank; Sample.exodus]) 1533
  = select [Sample.genesis; Sample.blank; Sample.exodus] 1533.
Proof.
  apply (select_skips_empty_books
           [Sample.genesis; Sample.blank; Sample.exodus] 1533).
  vm_compute. split; [discriminate | reflexivity].
Defined.

Lemma locate_app p q cum choice :
  locate cum (p ++ q) choice
  = match locate cum p choice with
    | Some found => Some found
    | None =>
        locate (fold_left (λ total b, GoInt.add total (LineCount b)) p cum)
          q choice
    end.
Proof.
  revert cum. induction p as [|b p IH]; intros cum; simpl; [done|].
  destruct (decide (choice ≤ GoInt.add cum (LineCount b))); [done|].
  apply IH.
Qed.

(** A choice above all the running sums is not found. *)
Lemma locate_beyond pool cum choice :
  nonNegative pool → 0 ≤ cum → cum + sumLines pool ≤ GoInt.max_int →
  cum + sumLines pool < choice → locate cum pool choice = None.
Proof.
  intros Hnn. revert cum.
  induction Hnn as [|b pool Hb Hnn IH]; intros cum Hc Hmax Hch; simpl in *;
    [done|].
  pose proof (sumLines_nonneg _ Hnn) as Hs.
  assert (GoInt.add cum (LineCount b) = cum + LineCount b) as ->.
  { apply wrap_small. unfold GoInt.in_range, GoInt.min_int. lia. }
  destruct (decide (choice ≤ cum + LineCount b)); [lia|].
  apply IH; lia.
Qed.

(** The walk from a running sum is the walk from zero on the choice less
    that sum. *)
Lemma locate_shift pool cum choice :
  nonNegative pool → 0 ≤ cum → cum + sumLines pool ≤ GoInt.max_int →
  cum < choice ≤ cum + sumLines pool →
  locate cum pool choice = locate 0 pool (choice - cum).
Proof.
  intros Hnn Hc Hmax Hch.
  destruct (locate_exact pool cum choice) as (i & b & Hi & -> & Hk);
    [done..|].
  destruct (locate_exact pool 0 (choice - cum)) as (i' & b' & Hi' & -> & Hk');
    [done|lia..|].
  destruct (globalIndex_inj pool i b (choice - cum - sumLines (take i pool))
              i' b' (choice - cum - 0 - sumLines (take i' pool)))
    as [<- Heq]; try done.
  - unfold globalIndex. lia.
  - rewrite Heq. congruence.
Qed.

(** X4.  The selection on two pools put one after the other, for
    non-negative counts whose sum fits an [int]: a draw below the total of
    the first pool selects in the first pool as it does there, and a draw
    from that total on selects in the second pool as the draw less that
    total does there. *)
Theorem select_app p q draw :
  nonNegative (p ++ q) → sumLines (p ++ q) ≤ GoInt.max_int →
  0 ≤ draw < totalLines (p ++ q) →
  totalLines (p ++ q) = totalLines p + totalLines q
  ∧ select (p ++ q) draw
    = if decide (draw < totalLines p) then select p draw
      else select q (draw - totalLines p).
Proof.
  intros [Hp Hq]%Forall_app Hfit Hd. rewrite sumLines_app in Hfit.
  pose proof (sumLines_nonneg _ Hp). pose proof (sumLines_nonneg _ Hq).
  assert (totalLines (p ++ q) = sumLines p + sumLines q) as Hpq.
  { rewrite totalLines_exact; [apply sumLines_app| |rewrite sumLines_app; lia].
    by apply Forall_app. }
  assert (totalLines p = sumLines p) as Htp by (apply totalLines_exact; [done|lia]).
  assert (totalLines q = sumLines q) as Htq by (apply totalLines_exact; [done|lia]).
  split; [lia|].
  rewrite select_positive by lia. rewrite locate_app.
  destruct (decide (draw < totalLines p)) as [Hlt|Hge].
  - rewrite select_positive by lia.
    destruct (locate_exact p 0 (draw + 1)) as (i & b & _ & -> & _);
      [done|lia..|done].
  - rewrite locate_beyond by (done || lia).
    fold (totalLines p). rewrite Htp.
    rewrite locate_shift by (done || lia).
    rewrite select_positive by lia.
    by replace (draw - sumLines p + 1) with (draw + 1 - sumLines p) by lia.
Qed.

Lemma select_app_witness :
  totalLines ([Sample.genesis] ++ [Sample.exodus])
  = totalLines [Sample.genesis] + totalLines [Sample.exodus]
  ∧ select ([Sample.genesis] ++ [Sample.exodus]) 1600
    = if decide (1600 < totalLines [Sample.genesis])
      then select [Sample.genesis] 1600
      else select [Sample.exodus] (1600 - totalLines [Sample.genesis]).
Proof.
  apply (select_app [Sample.genesis] [Sample.exodus] 1600).
  - repeat constructor; simpl; lia.
  - vm_compute. discriminate.
  - vm_compute. split; [discriminate | reflexivity].
Defined.

(** ** The category maps and the pool *)

Lemma buildMaps_snoc books cats c :
  buildMaps books (cats ++ [c])
  = mkCategoryMaps
      (<[Key c := (LowID c, HighID c)]> (catMap (buildMaps books cats)))
      (<[Key c := rangeLabel books (LowID c) (HighID c)]>
         (catLabel (buildMaps books cats))).
Proof. unfold buildMaps. by rewrite fold_left_app. Qed.

Lemma buildMaps_fresh books cats k :
  k ∉ Key <$> cats →
  catMap (buildMaps books cats) !! k = None
  ∧ catLabel (buildMaps books cats) !! k = None.
Proof.
  induction cats as [|c cats IH] using rev_ind; [done|].
  rewrite fmap_app, buildMaps_snoc. simpl.
  intros [Hcats Hc%not_elem_of_cons]%not_elem_of_app.
  destruct Hc as [Hne _]. rewrite !lookup_insert_ne by done. by apply IH.
Qed.

Lemma buildMaps_later books cats post k :
  k ∉ Key <$> post →
  catMap (buildMaps books (cats ++ post)) !! k
  = catMap (buildMaps books cats) !! k
  ∧ catLabel (buildMaps books (cats ++ post)) !! k
    = catLabel (buildMaps books cats) !! k.
Proof.
  induction post as [|c post IH] using rev_ind; [by rewrite app_nil_r|].
  rewrite fmap_app, app_assoc, buildMaps_snoc. simpl.
  intros [Hpost Hc%not_elem_of_cons]%not_elem_of_app.
  destruct Hc as [Hne _]. rewrite !lookup_insert_ne by done. by apply IH.
Qed.

(** X5.  The maps [init] builds from a list of categories.  A key is in
    [catMap], and in [catLabel], exactly when it is the key of a category
    of the list.  Under the key of a category that no later category of
    the list shares, [catMap] holds its bounds and [catLabel] the label of
    its range: of two categories with one key the later one wins. *)
Theorem buildMaps_keys books cats :
  (∀ k, is_Some (catMap (buildMaps books cats) !! k) ↔ k ∈ Key <$> cats)
  ∧ (∀ k, is_Some (catLabel (buildMaps books cats) !! k) ↔ k ∈ Key <$> cats)
  ∧ (∀ pre c post, cats = pre ++ c :: post → Key c ∉ Key <$> post →
       catMap (buildMaps books cats) !! Key c = Some (LowID c, HighID c)
       ∧ catLabel (buildMaps books cats) !! Key c
         = Some (rangeLabel books (LowID c) (HighID c))).
Proof.
  assert (∀ pre c post, Key c ∉ Key <$> post →
       catMap (buildMaps books (pre ++ c :: post)) !! Key c
       = Some (LowID c, HighID c)
       ∧ catLabel (buildMaps books (pre ++ c :: post)) !! Key c
         = Some (rangeLabel books (LowID c) (HighID c))) as Hlast.
  { intros pre c post Hpost.
    replace (pre ++ c :: post) with ((pre ++ [c]) ++ post)
      by (by rewrite <- app_assoc).
    destruct (buildMaps_later books (pre ++ [c]) post (Key c) Hpost)
      as [-> ->].
    rewrite buildMaps_snoc. simpl. by rewrite !lookup_insert_eq. }
  assert (∀ k, k ∈ Key <$> cats →
       is_Some (catMap (buildMaps books cats) !! k)
       ∧ is_Some (catLabel (buildMaps books cats) !! k)) as Hin.
  { intros k. induction cats as [|c cats IH] using rev_ind; [by inversion 1|].
    rewrite fmap_app, buildMaps_snoc. simpl.
    destruct (decide (Key c = k)) as [<-|Hne].
    - intros _. by rewrite !lookup_insert_eq.
    - rewrite !lookup_insert_ne by done.
      intros [Hk|Hk%list_elem_of_singleton]%elem_of_app; [by apply IH|done]. }
  split; [|split].
  - intros k. split; [|by apply Hin].
    intros Hsome. destruct (decide (k ∈ Key <$> cats)) as [|Hno]; [done|].
    apply (buildMaps_fresh books) in Hno as [Hno _].
    rewrite Hno in Hsome. by destruct Hsome.
  - intros k. split; [|by apply Hin].
    intros Hsome. destruct (decide (k ∈ Key <$> cats)) as [|Hno]; [done|].
    apply (buildMaps_fresh books) in Hno as [_ Hno].
    rewrite Hno in Hsome. by destruct Hsome.
  - intros pre c post -> Hpost. by apply Hlast.
Qed.

Lemma buildMaps_keys_witness :
  catMap (buildMaps Sample.catalog
            [mkCategory "a" 10 20; mkCategory "a" 510 510]) !! "a"
  = Some (510, 510)
  ∧ catLabel (buildMaps Sample.catalog
                [mkCategory "a" 10 20; mkCategory "a" 510 510]) !! "a"
    = Some "Acts".
Proof.
  exact (proj2 (proj2 (buildMaps_keys Sample.catalog
                         [mkCategory "a" 10 20; mkCategory "a" 510 510]))
           [mkCategory "a" 10 20] (mkCategory "a" 510 510) [] eq_refl
           (not_elem_of_nil _)).
Defined.

(** X6.  The pool of [main].  The program stops on [-narrow] exactly when
    the key is not empty and is no key of the categories.  Without
    [-narrow] the pool is the whole catalog, and every pool is a run of
    consecutive books of the catalog. *)
Theorem selectionPool_cases books cats key :
  (selectionPool books (buildMaps books cats) key = None
   ↔ key ≠ "" ∧ key ∉ Key <$> cats)
  ∧ selectionPool books (buildMaps books cats) "" = Some books
  ∧ (∀ pool, selectionPool books (buildMaps books cats) key = Some pool →
       ∃ pre post, books = pre ++ pool ++ post).
Proof.
  unfold selectionPool. split; [|split].
  - destruct (decide (key = "")) as [->|Hne].
    + split; [done|]. by intros [? _].
    + destruct (catMap (buildMaps books cats) !! key) as [[low high]|] eqn:Hk.
      * split; [done|]. intros [_ Hno].
        apply (buildMaps_fresh books) in Hno as [Hno _]. congruence.
      * split; [|done]. intros _. split; [done|]. intros Hin.
        assert (is_Some (catMap (buildMaps books cats) !! key)) as [? ?];
          [|congruence].
        clear Hk. induction cats as [|c cats IH] using rev_ind;
          [by inversion Hin|].
        rewrite buildMaps_snoc. simpl.
        destruct (decide (Key c = key)) as [<-|Hck].
        -- by rewrite lookup_insert_eq.
        -- rewrite lookup_insert_ne by done. apply IH.
           rewrite fmap_app in Hin.
           apply elem_of_app in Hin as [?|Hin%list_elem_of_singleton]; done.
  - done.
  - intros pool. destruct (decide (key = "")).
    + intros [= <-]. exists [], []. by rewrite app_nil_r.
    + destruct (catMap (buildMaps books cats) !! key) as [[low high]|];
        [|done].
      intros [= <-]. apply sliceRange_contiguous.
Qed.

Lemma selectionPool_cases_witness :
  ∃ pre post, Sample.catalog = pre ++ [Sample.acts] ++ post.
Proof.
  exact (proj2 (proj2 (selectionPool_cases Sample.catalog categories "nt"))
           [Sample.acts] eq_refl).
Defined.

(** ** The catalog load, further *)

Lemma Atoi_in_range s n : Strconv.Atoi s = Some n → GoInt.in_range n.
Proof.
  unfold Strconv.Atoi. destruct s as [|c r]; [done|].
  destruct (if decide (c = "-"%char ∨ c = "+"%char) then r else String c r);
    [done|].
  destruct (Strconv.digits 0 _) as [un|]; [|done].
  destruct (decide (GoInt.in_range _)); [|done]. by intros [= <-].
Qed.

Lemma digit_not_pipe c d : Strconv.digit c = Some d → c ≠ "|"%char.
Proof. intros Hd ->. by vm_compute in Hd. Qed.

Lemma digits_no_pipe s acc v :
  Strconv.digits acc s = Some v → hasByte "|" s = false.
Proof.
  revert acc. induction s as [|c s IH]; intros acc; simpl; [done|].
  destruct (Strconv.digit c) as [d|] eqn:Hd; [|done].
  apply digit_not_pipe in Hd. destruct (decide (c = "|"%char)); [done|].
  apply IH.
Qed.

(** What [Atoi] reads holds no pipe. *)
Lemma Atoi_no_pipe s n : Strconv.Atoi s = Some n → hasByte "|" s = false.
Proof.
  unfold Strconv.Atoi. destruct s as [|c r]; [done|].
  destruct (decide (c = "-"%char ∨ c = "+"%char)) as [Hsign|Hnosign].
  - destruct r as [|c' r']; [done|].
    destruct (Strconv.digits 0 (String c' r')) as [un|] eqn:Hun; [|done].
    intros _. apply digits_no_pipe in Hun. simpl.
    destruct (decide (c = "|"%char)) as [->|_]; [|done].
    by destruct Hsign.
  - destruct (Strconv.digits 0 (String c r)) as [un|] eqn:Hun; [|done].
    intros _. by apply digits_no_pipe in Hun.
Qed.

Lemma append_inv_tail a b s : a +:+ s = b +:+ s → a = b.
Proof.
  assert (∀ x y, String.length (x +:+ y)
                 = (String.length x + String.length y)%nat) as Hlen.
  { intros x y. induction x as [|c x IH]; simpl; [done|]. by rewrite IH. }
  revert b. induction a as [|c a IH]; intros [|d b]; simpl; [done| | |].
  - intros Heq. apply (f_equal String.length) in Heq. simpl in Heq.
    rewrite ?Hlen in Heq. simpl in Heq. lia.
  - intros Heq. apply (f_equal String.length) in Heq. simpl in Heq.
    rewrite ?Hlen in Heq. simpl in Heq. lia.
  - intros [= -> Heq]. f_equal. by apply IH.
Qed.

(** X7.  What holds of every book of a loaded catalog: its ID and its
    line count are values of [int] (a negative count is accepted), its
    name holds no pipe, and its file is named after its ID, so it is never
    the empty name and two books have the same file exactly when they have
    the same ID.  The catalog has no more books than the index has
    lines. *)
Theorem loadBooks_catalog sc books :
  loadBooks sc = Loaded books →
  Forall (λ b, GoInt.in_range (ID b) ∧ GoInt.in_range (LineCount b)
               ∧ hasByte "|" (Name b) = false
               ∧ File b = Strconv.Itoa (ID b) +:+ ".txt.gz"
               ∧ File b ≠ "") books
  ∧ (∀ b1 b2, b1 ∈ books → b2 ∈ books →
       (File b1 = File b2 ↔ ID b1 = ID b2))
  ∧ (length books ≤ length (Bufio.pending sc))%nat.
Proof.
  unfold loadBooks. destruct (Bufio.Err _); [done|].
  rewrite scanBooks_omap. simpl. intros [= <-].
  assert (∀ b, b ∈ omap parseLine (Bufio.pending sc) →
            GoInt.in_range (ID b) ∧ GoInt.in_range (LineCount b)
            ∧ hasByte "|" (Name b) = false
            ∧ File b = Strconv.Itoa (ID b) +:+ ".txt.gz"
            ∧ File b ≠ "") as Hbook.
  { intros b (line & _ & Hb)%list_elem_of_omap.
    apply parseLine_wellFormed in Hb
      as (f0 & f2 & _ & _ & Hname & _ & Hid & Hcnt & Hfile).
    split; [by eapply Atoi_in_range|]. split; [by eapply Atoi_in_range|].
    split; [done|]. split; [done|]. rewrite Hfile.
    destruct (Strconv.Itoa (ID b)); done. }
  split; [by apply Forall_forall|]. split.
  - intros b1 b2 (_ & _ & _ & Hf1 & _)%Hbook (_ & _ & _ & Hf2 & _)%Hbook.
    rewrite Hf1, Hf2. split.
    + intros Heq%append_inv_tail. by apply (inj pretty).
    + by intros ->.
  - generalize (Bufio.pending sc). intros tokens.
    induction tokens as [|line rest IH]; simpl; [done|].
    unfold omap in IH. destruct (parseLine line); simpl; lia.
Qed.

Lemma loadBooks_catalog_witness :
  (length [Sample.genesis; Sample.exodus]
   ≤ length ["10|Genesis|1533"; "oops"; "20|Exodus|1213"])%nat.
Proof.
  apply (loadBooks_catalog
           (Bufio.mkScanner ["10|Genesis|1533"; "oops"; "20|Exodus|1213"] false)
           [Sample.genesis; Sample.exodus]).
  reflexivity.
Defined.

(** X8.  An index put together of two parts loads into the catalog of the
    first part followed by the catalog of the second: records that follow
    never change the books loaded before them. *)
Theorem loadBooks_app tokens1 tokens2 books1 books2 :
  loadBooks (Bufio.mkScanner tokens1 false) = Loaded books1 →
  loadBooks (Bufio.mkScanner tokens2 false) = Loaded books2 →
  loadBooks (Bufio.mkScanner (tokens1 ++ tokens2) false)
  = Loaded (books1 ++ books2).
Proof.
  unfold loadBooks. simpl. rewrite !scanBooks_omap. simpl.
  intros [= <-] [= <-]. f_equal.
  induction tokens1 as [|line rest IH]; simpl; [done|].
  destruct (parseLine line); simpl; [f_equal|]; exact IH.
Qed.

Lemma loadBooks_app_witness :
  loadBooks (Bufio.mkScanner (["10|Genesis|1533"; "oops"] ++ ["20|Exodus|1213"])
               false)
  = Loaded ([Sample.genesis] ++ [Sample.exodus]).
Proof.
  apply (loadBooks_app ["10|Genesis|1533"; "oops"] ["20|Exodus|1213"]
           [Sample.genesis] [Sample.exodus]); reflexivity.
Defined.

(** The decimal digits [%d] prints are read back digit by digit. *)
Lemma digit_pretty_N_char d :
  (d < 10)%N → Strconv.digit (pretty_N_char d) = Some (Z.of_N d).
Proof.
  intros Hd.
  assert (d = 0 ∨ d = 1 ∨ d = 2 ∨ d = 3 ∨ d = 4 ∨ d = 5 ∨ d = 6 ∨ d = 7
          ∨ d = 8 ∨ d = 9)%N as Hcases by lia.
  repeat (destruct Hcases as [->|Hcases]; [by vm_compute|]).
  subst d. by vm_compute.
Qed.

Lemma digits_pretty_N_go x s :
  Strconv.digits 0 (pretty_N_go x s) = Strconv.digits (Z.of_N x) s.
Proof.
  revert s. induction (N.lt_wf_0 x) as [x _ IH]; intros s.
  assert (x = 0 ∨ 0 < x)%N as [->|Hx] by lia; [by rewrite pretty_N_go_0|].
  rewrite pretty_N_go_step by done.
  rewrite IH by (by apply N.div_lt). simpl.
  rewrite digit_pretty_N_char by (by apply N.mod_lt).
  f_equal. rewrite (N.div_mod x 10) at 3 by done. lia.
Qed.

(** A positive number is printed with a digit first. *)
Lemma pretty_N_go_first x s :
  (0 < x)%N →
  ∃ c r, pretty_N_go x s = String c r ∧ c ≠ "-"%char ∧ c ≠ "+"%char.
Proof.
  revert s. induction (N.lt_wf_0 x) as [x _ IH]; intros s Hx.
  rewrite pretty_N_go_step by done.
  destruct (N.eq_dec (x `div` 10)%N 0%N) as [->|Hdiv].
  - rewrite pretty_N_go_0. eexists _, _. split; [done|].
    unfold pretty_N_char. by repeat case_match.
  - apply IH; [by apply N.div_lt|by apply N.neq_0_lt_0].
Qed.

(** [Atoi] reads back what [%d] prints of an [int]. *)
Lemma Atoi_Itoa n : GoInt.in_range n → Strconv.Atoi (Strconv.Itoa n) = Some n.
Proof.
  intros Hn. unfold Strconv.Itoa, pretty, pretty_Z.
  destruct n as [|p|p].
  - by vm_compute.
  - unfold pretty, pretty_positive, pretty, pretty_N.
    destruct (decide (N.pos p = 0)%N); [done|].
    destruct (pretty_N_go_first (N.pos p) "") as (c & r & Hcr & Hm & Hp);
      [done|].
    pose proof (digits_pretty_N_go (N.pos p) "") as Hdig.
    rewrite Hcr in *. unfold Strconv.Atoi.
    destruct (decide (c = "-"%char ∨ c = "+"%char)) as [[?|?]|_]; [done..|].
    rewrite Hdig. simpl. rewrite bool_decide_eq_false_2 by done.
    by destruct (decide (GoInt.in_range (Z.pos p))).
  - unfold pretty, pretty_positive, pretty, pretty_N.
    destruct (decide (N.pos p = 0)%N); [done|].
    destruct (pretty_N_go_first (N.pos p) "") as (c & r & Hcr & Hm & Hp);
      [done|].
    pose proof (digits_pretty_N_go (N.pos p) "") as Hdig.
    rewrite Hcr in *. simpl. unfold Strconv.Atoi.
    destruct (decide ("-"%char = "-"%char ∨ "-"%char = "+"%char)) as [_|Hno];
      [|by destruct Hno; left].
    simpl in Hdig. rewrite Hdig. simpl.
    change (- Z.pos p) with (Z.neg p).
    by destruct (decide (GoInt.in_range (Z.neg p))).
Qed.

(** X9.  A record written as the decimal ID, a pipe, a name without pipe,
    a pipe and the decimal line count, ID and count being values of
    [int], loads as the book of that ID, name and count, with the file
    named after the ID. *)
Theorem parseLine_record id name cnt :
  GoInt.in_range id → GoInt.in_range cnt → hasByte "|" name = false →
  parseLine (Strconv.Itoa id +:+ String "|" (name +:+ String "|"
                                                (Strconv.Itoa cnt)))
  = Some (mkBookInfo id name cnt (Strconv.Itoa id +:+ ".txt.gz")).
Proof.
  intros Hid Hcnt Hname. apply parseLine_wellFormed.
  exists (Strconv.Itoa id), (Strconv.Itoa cnt). simpl.
  pose proof (Atoi_Itoa id Hid) as Hi. pose proof (Atoi_Itoa cnt Hcnt) as Hc.
  repeat split; try done; by eapply Atoi_no_pipe.
Qed.

Lemma parseLine_record_witness :
  parseLine (Strconv.Itoa 10 +:+ String "|" ("Genesis" +:+ String "|"
                                                (Strconv.Itoa 1533)))
  = Some (mkBookInfo 10 "Genesis" 1533 (Strconv.Itoa 10 +:+ ".txt.gz")).
Proof.
  apply (parseLine_record 10 "Genesis" 1533); by vm_compute.
Defined.

(** ** The frontmatter *)

Lemma prefix_append p r : String.prefix p (p +:+ r) = true.
Proof.
  induction p as [|c p IH]; simpl; [by destruct r|].
  by destruct (Ascii.ascii_dec c c).
Qed.

Lemma prefix_inv p s : String.prefix p s = true → ∃ r, s = p +:+ r.
Proof.
  revert s. induction p as [|c p IH]; intros s.
  - intros _. by exists s.
  - destruct s as [|d s]; simpl; [done|].
    destruct (Ascii.ascii_dec c d) as [->|]; [|done].
    intros (r & ->)%IH. by exists r.
Qed.

Lemma from_append p r : Bytes.from (String.length p) (p +:+ r) = r.
Proof. induction p as [|c p IH]; simpl; [by destruct r|done]. Qed.

Lemma append_nil_l x : "" +:+ x = x.
Proof. reflexivity. Qed.

Lemma append_cons c a x : String c a +:+ x = String c (a +:+ x).
Proof. reflexivity. Qed.

Lemma cutAt_unfold sep s :
  Bytes.cutAt sep s
  = if String.prefix sep s
    then Some (EmptyString, Bytes.from (String.length sep) s)
    else match s with
         | EmptyString => None
         | String c r =>
             match Bytes.cutAt sep r with
             | Some (a, b) => Some (String c a, b)
             | None => None
             end
         end.
Proof. by destruct s. Qed.

Lemma occurs_unfold sep s :
  occurs sep s
  = if String.prefix sep s then true
    else match s with
         | EmptyString => false
         | String _ r => occurs sep r
         end.
Proof. by destruct s. Qed.

(** [cutAt] cuts at an occurrence of the separator... *)
Lemma cutAt_sound sep s a b :
  Bytes.cutAt sep s = Some (a, b) → s = a +:+ (sep +:+ b).
Proof.
  revert a b. induction s as [|c s IH]; intros a b; rewrite cutAt_unfold.
  - destruct (String.prefix sep "") eqn:Hp; [|done].
    intros [= <- <-]. apply prefix_inv in Hp as (r & Hr).
    destruct sep; [|done]. by destruct r.
  - destruct (String.prefix sep (String c s)) eqn:Hp.
    + intros [= <- <-]. apply prefix_inv in Hp as (r & Hr).
      change ("" +:+ (sep +:+ Bytes.from (String.length sep) (String c s)))
        with (sep +:+ Bytes.from (String.length sep) (String c s)).
      rewrite Hr. by rewrite from_append.
    + destruct (Bytes.cutAt sep s) as [[a0 b0]|] eqn:Hcut; [|done].
      intros [= <- <-].
      change (String c a0 +:+ (sep +:+ b0))
        with (String c (a0 +:+ (sep +:+ b0))).
      f_equal. by apply IH.
Qed.

(** ... the first one ... *)
Lemma cutAt_first sep s a b :
  Bytes.cutAt sep s = Some (a, b) →
  ∀ a' b', s = a' +:+ (sep +:+ b') → (String.length a ≤ String.length a')%nat.
Proof.
  revert a b. induction s as [|c s IH]; intros a b; rewrite cutAt_unfold.
  - destruct (String.prefix sep ""); [|done]. intros [= <- <-]. simpl. lia.
  - destruct (String.prefix sep (String c s)) eqn:Hp.
    + intros [= <- <-]. simpl. lia.
    + destruct (Bytes.cutAt sep s) as [[a0 b0]|] eqn:Hcut; [|done].
      intros [= <- <-] a' b' Heq. destruct a' as [|d a'].
      * rewrite append_nil_l in Heq. rewrite Heq, prefix_append in Hp. done.
      * rewrite append_cons in Heq. injection Heq as <- Heq. simpl.
        specialize (IH a0 b0 eq_refl a' b' Heq). lia.
Qed.

(** ... and finds none exactly when there is none. *)
Lemma cutAt_none sep s : Bytes.cutAt sep s = None ↔ occurs sep s = false.
Proof.
  induction s as [|c s IH]; rewrite cutAt_unfold, occurs_unfold.
  - by destruct (String.prefix sep "").
  - destruct (String.prefix sep (String c s)); [done|].
    destruct (Bytes.cutAt sep s) as [[a b]|]; [|tauto].
    split; [done|]. intros Hocc. apply IH in Hocc. done.
Qed.

(** X10.  The frontmatter step of [init].  An index that does not begin
    with the line "---" is content as a whole, and no message is set.
    One that begins with it and holds no closing "---" line never loads:
    the program stops, fatally when the YAML does not parse and with an
    index out of range when it does.  One that holds a closing line is
    cut at the first of them: what is before is handed to the YAML
    parser, what is after is the content. *)
Theorem splitFrontmatter_cases unmarshal raw :
  (Bytes.HasPrefix raw fence = false →
   splitFrontmatter unmarshal raw = FrontOK zeroTranslations raw)
  ∧ (Bytes.HasPrefix raw fence = true → occurs closingFence raw = false →
     splitFrontmatter unmarshal raw
     = match unmarshal raw with
       | Some _ => FrontPanic
       | None => FrontFatal
       end)
  ∧ (Bytes.HasPrefix raw fence = true → occurs closingFence raw = true →
     ∃ yaml content,
       raw = yaml +:+ (closingFence +:+ content)
       ∧ (∀ yaml' content', raw = yaml' +:+ (closingFence +:+ content') →
            (String.length yaml ≤ String.length yaml')%nat)
       ∧ splitFrontmatter unmarshal raw
         = match unmarshal yaml with
           | Some trans => FrontOK trans content
           | None => FrontFatal
           end).
Proof.
  unfold splitFrontmatter. change (nl +:+ "---" +:+ nl) with closingFence.
  change ("---" +:+ nl) with fence. unfold Bytes.SplitN2.
  split; [|split].
  - by intros ->.
  - intros -> Hocc%cutAt_none. rewrite Hocc. simpl.
    by destruct (unmarshal raw).
  - intros -> Hocc.
    destruct (Bytes.cutAt closingFence raw) as [[yaml content]|] eqn:Hcut.
    + exists yaml, content. split; [by apply cutAt_sound|].
      split; [by eapply cutAt_first|]. simpl. by destruct (unmarshal yaml).
    + apply cutAt_none in Hcut. congruence.
Qed.

Lemma splitFrontmatter_cases_witness :
  splitFrontmatter (λ _, Some zeroTranslations) "10|Genesis|1533"
  = FrontOK zeroTranslations "10|Genesis|1533"
  ∧ splitFrontmatter (λ _, Some zeroTranslations) (fence +:+ "language: en")
    = FrontPanic
  ∧ ∃ yaml content,
      fence +:+ "language: en" +:+ closingFence +:+ "10|Genesis|1533"
      = yaml +:+ (closingFence +:+ content)
      ∧ (∀ yaml' content',
           fence +:+ "language: en" +:+ closingFence +:+ "10|Genesis|1533"
           = yaml' +:+ (closingFence +:+ content') →
           (String.length yaml ≤ String.length yaml')%nat)
      ∧ splitFrontmatter (λ _, Some zeroTranslations)
          (fence +:+ "language: en" +:+ closingFence +:+ "10|Genesis|1533")
        = match (λ _, Some zeroTranslations) yaml with
          | Some trans => FrontOK trans content
          | None => FrontFatal
          end.
Proof.
  split; [|split].
  - by apply (splitFrontmatter_cases (λ _, Some zeroTranslations)
                "10|Genesis|1533").
  - by apply (proj1 (proj2 (splitFrontmatter_cases
                              (λ _, Some zeroTranslations)
                              (fence +:+ "language: en"))) eq_refl eq_refl).
  - by apply (splitFrontmatter_cases (λ _, Some zeroTranslations)
                (fence +:+ "language: en" +:+ closingFence
                 +:+ "10|Genesis|1533")).
Defined.

(** ** The selection within a range *)

Lemma sliceRange_upper books lowID highID :
  Forall (λ b, ID b ≤ highID) (sliceRange books lowID highID).
Proof.
  rewrite sliceRange_while.
  destruct (dropWhile_suffix (λ b, ID b < lowID)
              (takeWhile (λ b, ID b ≤ highID) books)) as (pre & Heq & _).
  pose proof (takeWhile_Forall (λ b, ID b ≤ highID) books) as Hall.
  rewrite Heq in Hall. by apply Forall_app in Hall as [_ ?].
Qed.

Lemma sliceRange_elem books lowID highID b :
  b ∈ sliceRange books lowID highID → b ∈ books.
Proof.
  destruct (sliceRange_contiguous books lowID highID) as (pre & post & Heq).
  intros Hb. rewrite Heq. apply elem_of_app. right.
  apply elem_of_app. by left.
Qed.

(** X11.  The book selected within a range.  When the range resolves to
    a pool with a positive total, the selected book is a book of the
    catalog whose ID is at most [highID]; on a sorted catalog its ID is
    also at least [lowID]. *)
Theorem select_within_range books lowID highID draw :
  1 ≤ totalLines (sliceRange books lowID highID) →
  0 ≤ draw < totalLines (sliceRange books lowID highID) →
  ∃ b k, select (sliceRange books lowID highID) draw = Selected b k
         ∧ b ∈ books ∧ ID b ≤ highID
         ∧ (ascendingIDs books → lowID ≤ ID b).
Proof.
  intros Hpos Hd. rewrite select_positive by lia.
  destruct (locate_finds (sliceRange books lowID highID) 0 (draw + 1))
    as (i & b & k & Hi & -> & _);
    [apply zero_in_range | lia | fold (totalLines (sliceRange books lowID highID)); lia |].
  assert (b ∈ sliceRange books lowID highID) as Hb.
  { apply list_elem_of_lookup. by exists i. }
  exists b, k. split; [done|]. split; [by eapply sliceRange_elem|]. split.
  - by apply (proj1 (Forall_forall _ _) (sliceRange_upper books lowID highID)).
  - intros Hs. rewrite sliceRange_sorted in Hb by done.
    apply list_elem_of_filter in Hb as [? _]. lia.
Qed.

Lemma select_within_range_witness :
  ∃ b k, select (sliceRange Sample.catalog 10 50) 1533 = Selected b k
         ∧ b ∈ Sample.catalog ∧ ID b ≤ 50
         ∧ (ascendingIDs Sample.catalog → 10 ≤ ID b).
Proof.
  apply (select_within_range Sample.catalog 10 50 1533).
  - vm_compute. discriminate.
  - vm_compute. split; [discriminate | reflexivity].
Defined.

(** ** The lines printed *)

Lemma cut_sound sep s a b :
  Strings.cut sep s = Some (a, b) → s = a +:+ String sep b.
Proof.
  revert a. induction s as [|c s IH]; intros a; simpl; [done|].
  destruct (decide (c = sep)) as [->|_].
  - by intros [= <- <-].
  - destruct (Strings.cut sep s) as [[a0 b0]|]; [|done].
    intros [= <- <-]. rewrite append_cons. f_equal. by apply IH.
Qed.

Lemma append_assoc a b c : (a +:+ b) +:+ c = a +:+ (b +:+ c).
Proof.
  induction a as [|x a IH]; [done|]. rewrite !append_cons. by f_equal.
Qed.

Lemma printVerse_plain line : printVerse "" "" (verseOf line) = line +:+ nl.
Proof.
  unfold verseOf, Strings.SplitN2.
  destruct (Strings.cut " " line) as [[tok rest]|] eqn:Hcut; [|done].
  apply cut_sound in Hcut as ->. simpl printVerse.
  rewrite !append_nil_l. by rewrite append_assoc.
Qed.

(** X12.  The lines of standard output.  Without [-c] a line of the book
    is printed as it stands, followed by a line feed, whether it holds a
    space or not; so two different lines are never printed alike.  With
    codes [pre] and [suf], a line with a space is printed with its token
    between the codes, and a line without a space as it stands. *)
Theorem printVerse_lines :
  (∀ line, printVerse "" "" (verseOf line) = line +:+ nl)
  ∧ (∀ line1 line2, verseOf line1 = verseOf line2 → line1 = line2)
  ∧ (∀ pre suf tok rest, hasByte " " tok = false →
       printVerse pre suf (verseOf (tok +:+ String " " rest))
       = pre +:+ tok +:+ suf +:+ " " +:+ rest +:+ nl)
  ∧ (∀ pre suf line, hasByte " " line = false →
       printVerse pre suf (verseOf line) = line +:+ nl).
Proof.
  split; [apply printVerse_plain|]. split; [|split].
  - intros line1 line2 Heq.
    apply (append_inv_tail line1 line2 nl).
    by rewrite <- !printVerse_plain, Heq.
  - intros pre suf tok rest Htok. unfold verseOf, Strings.SplitN2.
    by rewrite cut_first.
  - intros pre suf line Hline. unfold verseOf, Strings.SplitN2.
    by rewrite cut_none.
Qed.

Lemma printVerse_lines_witness :
  printVerse (colorPrefix true) (colorSuffix true)
    (verseOf ("1:1" +:+ String " " "In the beginning"))
  = colorPrefix true +:+ "1:1" +:+ colorSuffix true +:+ " "
    +:+ "In the beginning" +:+ nl
  ∧ printVerse (colorPrefix true) (colorSuffix true) (verseOf "Amen")
    = "Amen" +:+ nl.
Proof.
  split.
  - by apply (proj1 (proj2 (proj2 printVerse_lines))).
  - by apply (proj2 (proj2 (proj2 printVerse_lines))).
Defined.

(** ** The program as a whole *)

Lemma extract_eq sc offset :
  extract sc offset
  = (verseOf <$> drop (Z.to_nat (offset - 1)) (Bufio.pending sc),
     Bufio.failure sc).
Proof.
  unfold extract, skipTo, Bufio.Err, Bufio.exhausted. simpl.
  destruct (skipLoop_pending (Z.to_nat (offset - 1)) sc) as [-> ->].
  by rewrite verses_fmap.
Qed.

(** [main] once a book is selected and its file opened. *)
Lemma main_selected trans books m fs flags draw pool sel offset sc :
  selectionPool books m (narrow flags) = Some pool →
  select pool draw = Selected sel offset →
  openFile fs (File sel) = Some (Gzip sc) →
  main trans books m fs flags draw
  = mkRun
      (header sel offset (colorPrefix (colorize flags))
         (colorSuffix (colorize flags))
       +:+ concatStrings
             (printVerse (colorPrefix (colorize flags))
                (colorSuffix (colorize flags))
              <$> (verseOf
                   <$> drop (Z.to_nat (offset - 1)) (Bufio.pending sc))))
      (if Bufio.failure sc then [ScanFailure] else [])
      (if Bufio.failure sc then Exits 1 else Returns).
Proof.
  intros Hpool Hsel Hopen. unfold main.
  rewrite Hpool, Hsel, Hopen, extract_eq.
  by destruct (Bufio.failure sc).
Qed.

(** X13.  What the program prints without [-c], once a book is selected
    and its file opened: the header, then the lines of the book from the
    line of the offset on, each as it stands and followed by a line feed.
    When the file has fewer lines than the offset, the header alone is
    printed, and the program still ends as the stream does: normally, or
    with status 1 after a read error. *)
Theorem main_plain_output trans books m fs key draw pool sel offset sc :
  selectionPool books m key = Some pool →
  select pool draw = Selected sel offset →
  openFile fs (File sel) = Some (Gzip sc) →
  main trans books m fs (mkFlags key false) draw
  = mkRun
      (header sel offset "" ""
       +:+ concatStrings
             ((λ line, line +:+ nl)
              <$> drop (Z.to_nat (offset - 1)) (Bufio.pending sc)))
      (if Bufio.failure sc then [ScanFailure] else [])
      (if Bufio.failure sc then Exits 1 else Returns)
  ∧ (Z.of_nat (length (Bufio.pending sc)) < offset →
     stdout (main trans books m fs (mkFlags key false) draw)
     = header sel offset "" "").
Proof.
  intros Hpool Hsel Hopen.
  rewrite (main_selected trans books m fs (mkFlags key false) draw
             pool sel offset sc) by done.
  simpl colorPrefix. simpl colorSuffix.
  assert (∀ lines : list string, printVerse "" "" <$> (verseOf <$> lines)
                   = (λ line, line +:+ nl) <$> lines) as Hplain.
  { intros lines. induction lines as [|line lines IH]; [done|].
    rewrite !fmap_cons, IH. by rewrite printVerse_plain. }
  rewrite Hplain. split; [done|].
  intros Hshort. simpl stdout. rewrite drop_ge by lia. simpl.
  generalize (header sel offset "" ""). intros h.
  induction h as [|c h IH]; [done|]. rewrite append_cons. by f_equal.
Qed.

Lemma main_plain_output_witness :
  main SampleRun.trans [SampleRun.three]
    (buildMaps [SampleRun.three] categories) SampleRun.files
    (mkFlags "" false) 1
  = mkRun
      (header SampleRun.three 2 "" ""
       +:+ concatStrings
             ((λ line, line +:+ nl)
              <$> drop (Z.to_nat (2 - 1))
                    ["1:1 In the beginning"; "1:2 And the earth"; "Amen"]))
      [] Returns.
Proof.
  by apply (main_plain_output SampleRun.trans [SampleRun.three]
              (buildMaps [SampleRun.three] categories) SampleRun.files ""
              1 [SampleRun.three] SampleRun.three 2
              (Bufio.mkScanner
                 ["1:1 In the beginning"; "1:2 And the earth"; "Amen"] false)).
Defined.

Lemma consistent_lines fs b :
  consistent fs b → Z.of_nat (length (linesOf fs b)) = LineCount b.
Proof. intros (sc & Hopen & _ & Hlen). unfold linesOf. by rewrite Hopen. Qed.

Lemma poolText_app fs p q : poolText fs (p ++ q) = poolText fs p ++ poolText fs q.
Proof. unfold poolText. by rewrite fmap_app, concat_app. Qed.

Lemma poolText_length fs pool :
  Forall (consistent fs) pool →
  nonNegative pool ∧ sumLines pool = Z.of_nat (length (poolText fs pool)).
Proof.
  induction 1 as [|b pool Hb Hpool [Hnn Hsum]]; [by split; [constructor|]|].
  apply consistent_lines in Hb. split.
  - constructor; [lia|done].
  - change (poolText fs (b :: pool)) with (linesOf fs b ++ poolText fs pool).
    rewrite length_app. simpl. lia.
Qed.

(** The line [r] of the book at position [i] in the text of the pool. *)
Lemma poolText_lookup fs pool i b r :
  pool !! i = Some b → (r < length (linesOf fs b))%nat →
  poolText fs pool !! (length (poolText fs (take i pool)) + r)%nat
  = linesOf fs b !! r.
Proof.
  intros Hi Hr.
  assert (poolText fs pool
          = poolText fs (take i pool) ++ poolText fs (b :: drop (S i) pool))
    as -> by (by rewrite <- poolText_app, take_drop_middle).
  change (poolText fs (b :: drop (S i) pool))
    with (linesOf fs b ++ poolText fs (drop (S i) pool)).
  rewrite lookup_app_r by lia.
  replace (length (poolText fs (take i pool)) + r
           - length (poolText fs (take i pool)))%nat with r by lia.
  by rewrite lookup_app_l.
Qed.

(** X14.  The line that is drawn is the line that is printed first.  When
    the files agree with the index on every book of the pool and the
    lines of the pool are no more than an [int] holds, the total is the
    number of lines of the pool, and on the draw [d] the program prints,
    after the header of the selected book, the line [d] (counted from 0)
    of the text of the pool, which is the line [offset] of that book, and
    ends normally. *)
Theorem main_prints_drawn_line trans books m fs flags draw pool :
  selectionPool books m (narrow flags) = Some pool →
  Forall (consistent fs) pool →
  Z.of_nat (length (poolText fs pool)) ≤ GoInt.max_int →
  0 ≤ draw < Z.of_nat (length (poolText fs pool)) →
  totalLines pool = Z.of_nat (length (poolText fs pool))
  ∧ ∃ sel offset line rest,
      select pool draw = Selected sel offset ∧ sel ∈ pool
      ∧ 1 ≤ offset ≤ LineCount sel
      ∧ poolText fs pool !! Z.to_nat draw = Some line
      ∧ linesOf fs sel !! Z.to_nat (offset - 1) = Some line
      ∧ main trans books m fs flags draw
        = mkRun
            (header sel offset (colorPrefix (colorize flags))
               (colorSuffix (colorize flags))
             +:+ (printVerse (colorPrefix (colorize flags))
                    (colorSuffix (colorize flags)) (verseOf line)
                  +:+ rest))
            [] Returns.
Proof.
  intros Hpool Hcons Hfit Hd.
  destruct (poolText_length fs pool Hcons) as [Hnn Hsum].
  assert (totalLines pool = sumLines pool) as Htot.
  { apply totalLines_exact; [done|lia]. }
  split; [lia|].
  destruct (locate_exact pool 0 (draw + 1) Hnn) as (i & b & Hi & Hloc & Hk);
    [lia..|].
  set (k := draw + 1 - 0 - sumLines (take i pool)) in *.
  assert (b ∈ pool) as Hb by (apply list_elem_of_lookup; by exists i).
  pose proof (proj1 (Forall_forall _ _) Hcons b Hb) as Hcb.
  pose proof (consistent_lines fs b Hcb) as Hlen.
  destruct (poolText_length fs (take i pool) (Forall_take _ _ _ Hcons))
    as [_ Hpre].
  assert (Z.to_nat draw
          = (length (poolText fs (take i pool)) + Z.to_nat (k - 1))%nat)
    as Hidx by (unfold k; lia).
  assert (poolText fs pool !! Z.to_nat draw
          = linesOf fs b !! Z.to_nat (k - 1)) as Hline.
  { rewrite Hidx. apply poolText_lookup; [done|lia]. }
  destruct (linesOf fs b !! Z.to_nat (k - 1)) as [line|] eqn:Hl.
  2:{ apply lookup_ge_None in Hl. lia. }
  destruct Hcb as (sc & Hopen & Hok & _).
  assert (linesOf fs b = Bufio.pending sc) as Hlines.
  { unfold linesOf. by rewrite Hopen. }
  exists b, k, line,
    (concatStrings
       (printVerse (colorPrefix (colorize flags))
          (colorSuffix (colorize flags))
        <$> (verseOf <$> drop (S (Z.to_nat (k - 1))) (Bufio.pending sc)))).
  assert (select pool draw = Selected b k) as Hsel.
  { rewrite select_positive by lia. by rewrite Hloc. }
  split; [done|]. split; [done|]. split; [done|]. split; [done|].
  split; [done|].
  rewrite (main_selected trans books m fs flags draw pool b k sc) by done.
  rewrite Hok. rewrite Hlines in Hl.
  by rewrite (drop_S _ _ _ Hl).
Qed.

Lemma main_prints_drawn_line_witness :
  ∃ sel offset line rest,
    select [SampleRun.three] 1 = Selected sel offset
    ∧ sel ∈ [SampleRun.three]
    ∧ 1 ≤ offset ≤ LineCount sel
    ∧ poolText SampleRun.files [SampleRun.three] !! Z.to_nat 1 = Some line
    ∧ linesOf SampleRun.files sel !! Z.to_nat (offset - 1) = Some line
    ∧ main SampleRun.trans [SampleRun.three]
        (buildMaps [SampleRun.three] categories) SampleRun.files
        (mkFlags "" true) 1
      = mkRun
          (header sel offset (colorPrefix true) (colorSuffix true)
           +:+ (printVerse (colorPrefix true) (colorSuffix true)
                  (verseOf line) +:+ rest))
          [] Returns.
Proof.
  apply (main_prints_drawn_line SampleRun.trans [SampleRun.three]
           (buildMaps [SampleRun.three] categories) SampleRun.files
           (mkFlags "" true) 1 [SampleRun.three]).
  - reflexivity.
  - constructor; [|constructor].
    exists (Bufio.mkScanner
              ["1:1 In the beginning"; "1:2 And the earth"; "Amen"] false).
    by vm_compute.
  - vm_compute. discriminate.
  - vm_compute. split; [discriminate | reflexivity].
Defined.

Lemma sumLines_contiguous pre pool post :
  nonNegative (pre ++ pool ++ post) →
  nonNegative pool ∧ sumLines pool ≤ sumLines (pre ++ pool ++ post).
Proof.
  intros [Hpre [Hpool Hpost]%Forall_app]%Forall_app.
  split; [done|]. rewrite !sumLines_app.
  pose proof (sumLines_nonneg _ Hpre). pose proof (sumLines_nonneg _ Hpost).
  lia.
Qed.

(** X15.  The program panics exactly when the total of the pool is
    negative, which [rng.Intn] does not accept.  On a catalog of
    non-negative line counts whose sum fits an [int] it never panics,
    whatever the category maps, the files, the flags and the draw. *)
Theorem main_panics_iff trans books m fs flags draw :
  (status (main trans books m fs flags draw) = Panics
   ↔ ∃ pool, selectionPool books m (narrow flags) = Some pool
             ∧ totalLines pool < 0)
  ∧ (nonNegative books → sumLines books ≤ GoInt.max_int →
     status (main trans books m fs flags draw) ≠ Panics).
Proof.
  assert (status (main trans books m fs flags draw) = Panics
   ↔ ∃ pool, selectionPool books m (narrow flags) = Some pool
             ∧ totalLines pool < 0) as Hiff.
  { unfold main.
    destruct (selectionPool books m (narrow flags)) as [pool|] eqn:Hpool.
    - unfold select.
      destruct (decide (totalLines pool = 0)) as [Hz|Hnz].
      + split; [done|]. intros (? & [= <-] & ?). lia.
      + destruct (decide (totalLines pool ≤ 0)) as [Hneg|Hpos].
        * split; [|done]. intros _. exists pool. split; [done|lia].
        * split.
          -- destruct (locate 0 pool (GoInt.add draw 1)) as [[sel offset]|];
               (destruct (openFile fs _) as [[|sc]|]; [done| |done]);
               destruct (extract sc _) as [vs failed]; by destruct failed.
          -- intros (? & [= <-] & ?). lia.
    - split; [done|]. by intros (? & ? & _). }
  split; [done|]. intros Hnn Hfit [pool [Hpool Hneg]]%Hiff.
  assert (∃ pre post, books = pre ++ pool ++ post) as (pre & post & Heq).
  { unfold selectionPool in Hpool.
    destruct (decide (narrow flags = "")).
    - injection Hpool as <-. exists [], []. by rewrite app_nil_r.
    - destruct (catMap m !! narrow flags) as [[low high]|]; [|done].
      injection Hpool as <-. apply sliceRange_contiguous. }
  rewrite Heq in Hnn, Hfit.
  destruct (sumLines_contiguous pre pool post Hnn) as [Hp Hle].
  rewrite totalLines_exact in Hneg by (done || lia).
  pose proof (sumLines_nonneg pool Hp). lia.
Qed.

Lemma main_panics_iff_witness :
  status (main SampleRun.trans Sample.catalog
            (buildMaps Sample.catalog categories) SampleRun.files
            (mkFlags "ot" true) 7) ≠ Panics.
Proof.
  apply (main_panics_iff SampleRun.trans Sample.catalog
           (buildMaps Sample.catalog categories) SampleRun.files
           (mkFlags "ot" true) 7).
  - repeat constructor; simpl; lia.
  - vm_compute. discriminate.
Defined.

(** X16.  A [-narrow] that is not empty and is no key of the categories
    ends the program with status 1 and nothing on standard output.
    Standard error gets the message with the key, the line of the
    accepted values and then, for each of the thirteen categories in
    their order, its key and the label of its range in this catalog. *)
Theorem main_invalid_narrow trans books fs key color draw :
  key ≠ "" → key ∉ Key <$> categories →
  main trans books (buildMaps books categories) fs (mkFlags key color) draw
  = mkRun ""
      (Formatted (InvalidParamMessage trans +:+ nl) key
       :: Text (AcceptedValuesMessage trans +:+ nl)
       :: ((λ c, Text ("  " +:+ Key c +:+ " — "
                       +:+ rangeLabel books (LowID c) (HighID c) +:+ nl))
             <$> categories))
      (Exits 1).
Proof.
  intros Hne Hkey. unfold main. simpl narrow.
  assert (selectionPool books (buildMaps books categories) key = None) as ->.
  { unfold selectionPool. destruct (decide (key = "")); [done|].
    by destruct (buildMaps_fresh books categories key Hkey) as [-> _]. }
  unfold invalidNarrow.
  assert ((λ c, Text ("  " +:+ Key c +:+ " — "
                      +:+ default "" (catLabel (buildMaps books categories)
                                        !! Key c) +:+ nl)) <$> categories
          = (λ c, Text ("  " +:+ Key c +:+ " — "
                        +:+ rangeLabel books (LowID c) (HighID c) +:+ nl))
              <$> categories) as ->; [|done].
  apply list_fmap_ext. intros i c Hc.
  rewrite categories_labelled; [done|].
  apply list_elem_of_lookup. by exists i.
Qed.

Lemma main_invalid_narrow_witness :
  status (main SampleRun.trans Sample.catalog
            (buildMaps Sample.catalog categories) SampleRun.files
            (mkFlags "psalms" false) 0) = Exits 1.
Proof.
  rewrite (main_invalid_narrow SampleRun.trans Sample.catalog
             SampleRun.files "psalms" false 0); [done|done|].
  apply (bool_decide_unpack ("psalms" ∉ Key <$> categories)). by vm_compute.
Defined.

(** X17.  The "no verses" report of the command line program has three
    causes that it does not tell apart: for a valid [-narrow] the program
    writes the message of [trans.NoVersesError] alone and exits with
    status 1 exactly when the total of the pool is 0, or the file of the
    selected book is not among the embedded files, or that file is no
    gzip stream. *)
Theorem main_no_verses_causes trans books m fs flags draw pool :
  selectionPool books m (narrow flags) = Some pool →
  (main trans books m fs flags draw = noVerses trans
   ↔ totalLines pool = 0
     ∨ ∃ sel offset, select pool draw = Selected sel offset
         ∧ (openFile fs (File sel) = None
            ∨ openFile fs (File sel) = Some NotGzip)).
Proof.
  intros Hpool. unfold main. rewrite Hpool. split.
  - destruct (select pool draw) as [| |sel offset] eqn:Hsel.
    + intros _. left. unfold select in Hsel.
      destruct (decide (totalLines pool = 0)); [done|].
      destruct (decide (totalLines pool ≤ 0)); [done|].
      by destruct (locate 0 pool _) as [[??]|].
    + done.
    + destruct (openFile fs (File sel)) as [[|sc]|] eqn:Hopen.
      * intros _. right. exists sel, offset. eauto.
      * destruct (extract sc offset) as [vs failed]. by destruct failed.
      * intros _. right. exists sel, offset. eauto.
  - intros [Hz|(sel & offset & Hsel & [Hopen|Hopen])].
    + unfold select. by destruct (decide (totalLines pool = 0)).
    + by rewrite Hsel, Hopen.
    + by rewrite Hsel, Hopen.
Qed.

Lemma main_no_verses_causes_witness :
  main SampleRun.trans [Sample.one]
    (buildMaps [Sample.one] categories) SampleRun.files (mkFlags "" false) 0
  = noVerses SampleRun.trans.
Proof.
  apply (main_no_verses_causes SampleRun.trans [Sample.one]
           (buildMaps [Sample.one] categories) SampleRun.files
           (mkFlags "" false) 0 [Sample.one] eq_refl).
  right. exists Sample.one, 1. split; [reflexivity|]. right. reflexivity.
Defined.

(** X18.  A category none of whose books is in the catalog.  On a sorted
    catalog without a book whose ID lies within the bounds of a category,
    narrowing to that category gives the "no verses" report: nothing on
    standard output, status 1, and no panic. *)
Theorem main_empty_category trans books fs c color draw :
  ascendingIDs books → c ∈ categories →
  (∀ b, b ∈ books → ¬ (LowID c ≤ ID b ≤ HighID c)) →
  main trans books (buildMaps books categories) fs (mkFlags (Key c) color)
    draw
  = noVerses trans.
Proof.
  intros Hs Hc Hnone. unfold main. simpl narrow.
  assert (selectionPool books (buildMaps books categories) (Key c) = Some [])
    as ->.
  { unfold selectionPool.
    destruct (decide (Key c = "")) as [Hempty|_].
    - exfalso. revert Hempty. clear -Hc.
      assert (Forall (λ c, Key c ≠ "") categories) as Hall
        by (repeat constructor; done).
      by apply (proj1 (Forall_forall _ _) Hall).
    - destruct (buildMaps_lookup books categories c) as [-> _]; [|done|].
      + apply (bool_decide_unpack (NoDup (Key <$> categories))).
        by vm_compute.
      + rewrite sliceRange_sorted by done. by rewrite booksInRange_none. }
  done.
Qed.

Lemma main_empty_category_witness :
  main SampleRun.trans Sample.catalog
    (buildMaps Sample.catalog categories) SampleRun.files
    (mkFlags "poetic" false) 3
  = noVerses SampleRun.trans.
Proof.
  apply (main_empty_category SampleRun.trans Sample.catalog SampleRun.files
           (mkCategory "poetic" 220 260) false 3).
  - repeat constructor; simpl; lia.
  - apply list_elem_of_lookup. by exists 4%nat.
  - apply Forall_forall. repeat constructor; simpl; lia.
Defined.
